(** * getoptmm: a shallow embedding of [getoptmm.hpp]

    The development follows the header top to bottom: the enumerations,
    the class [basic_option] (matching, execution, help row), the class
    [basic_parse_error], and the class [basic_parser] ([run] and
    [get_help]), with the part of [std::regex] that [run] relies on.  It
    models the narrow instantiation [parser = basic_parser<std::string>]:
    a [char] is an [ascii] and a [std::string] is a [string].

    Handlers are host code.  They are modelled as computations in a small
    state-and-exception monad over an arbitrary host state [St]; a thrown
    [parser::error] keeps the state reached so far, and a failed [assert]
    is an outcome of its own. *)

From Stdlib Require Import String Ascii List Bool Arith Lia.
Import ListNotations.
Open Scope list_scope.
Open Scope string_scope.

(** ** Enumerations *)

(** [enum class arg_type { none, optional, required }] *)
Inductive arg_type : Type :=
| arg_none
| arg_optional
| arg_required.

(** [enum class match_type { none, exact, partial }] *)
Inductive match_type : Type :=
| match_none
| match_exact
| match_partial.

(** [enum class parse_flag { none, posixly_correct }] *)
Inductive parse_flag : Type :=
| flag_none
| posixly_correct.

Definition match_type_eqb (a b : match_type) : bool :=
  match a, b with
  | match_none, match_none => true
  | match_exact, match_exact => true
  | match_partial, match_partial => true
  | _, _ => false
  end.

(** ** Errors and the handler monad *)

(** [basic_parse_error]: a [std::runtime_error] that carries a message. *)
Record basic_parse_error : Type := error { get_message : string }.

(** How a call ends: it returns, it throws a [parser::error], or an
    [assert] fails. *)
Inductive outcome (A : Type) : Type :=
| Returned (a : A)
| Thrown (e : basic_parse_error)
| AssertionFailed.

Arguments Returned {A} a.
Arguments Thrown {A} e.
Arguments AssertionFailed {A}.

Module HostMonad.

(** A computation over the host state [St]. *)
Definition M (St A : Type) : Type := St -> St * outcome A.

Definition ret {St A} (a : A) : M St A := fun s => (s, Returned a).

Definition bind {St A B} (m : M St A) (k : A -> M St B) : M St B :=
  fun s =>
    match m s with
    | (s', Returned a) => k a s'
    | (s', Thrown e) => (s', Thrown e)
    | (s', AssertionFailed) => (s', AssertionFailed)
    end.

(** [throw error(msg)] *)
Definition throw {St A} (msg : string) : M St A :=
  fun s => (s, Thrown (error msg)).

(** [assert(b)] *)
Definition assert {St} (b : bool) : M St unit :=
  fun s => (s, if b then Returned tt else AssertionFailed).

End HostMonad.
Import HostMonad.

Declare Scope host_scope.
Delimit Scope host_scope with host.
Notation "x <- m ;; k" := (bind m (fun x => k))
  (at level 61, m at next level, right associativity) : host_scope.
Notation "m ;;; k" := (bind m (fun _ => k))
  (at level 61, right associativity) : host_scope.
Open Scope host_scope.

(** ** String helpers standing for the C++ library calls *)

(** [std::mismatch(s.begin(), s.end(), name.begin()).first], as the suffix
    of [s] that starts at the returned iterator; [""] is [s.end()].  The
    caller guarantees [s.size() < name.size()]. *)
Fixpoint mismatch (s name : string) : string :=
  match s, name with
  | String a s', String b name' =>
      if Ascii.eqb a b then mismatch s' name' else s
  | _, _ => s
  end.

(** [is_end it]: the iterator [it] (a suffix) equals [end()]. *)
Definition is_end (it : string) : bool :=
  match it with
  | EmptyString => true
  | String _ _ => false
  end.

(** [std::find_if(first, last, pred)] on a vector: an iterator is the
    suffix that starts at it, so [[]] is [end()], the head is [*it] and
    the tail is [std::next(it)]. *)
Fixpoint find_if {A : Type} (pred : A -> bool) (first : list A) : list A :=
  match first with
  | [] => []
  | x :: next => if pred x then first else find_if pred next
  end.

(** ** class basic_option *)

Section Option.

Variable St : Type.

Record basic_option : Type := {
  m_short_names : list ascii;
  m_long_names : list string;
  m_arg_type : arg_type;
  (* the std::function taking a pointer to a string: None is nullptr *)
  m_handler : option string -> M St unit;
  m_arg_name : string;
  m_description : string
}.

(** The constructor taking [no_arg_t]: the stored handler ignores its
    pointer and calls [h()]. *)
Definition option_no_arg (short_names : list ascii) (long_names : list string)
    (h : M St unit) (description : string) : basic_option :=
  {| m_short_names := short_names;
     m_long_names := long_names;
     m_arg_type := arg_none;
     m_handler := fun _ => h;
     m_arg_name := "";
     m_description := description |}.

(** The constructor taking [optional_arg_t]: [h] on the pointee when the
    pointer is set, [h()] otherwise; [h] stands for both call forms. *)
Definition option_optional_arg (short_names : list ascii)
    (long_names : list string) (h : option string -> M St unit)
    (arg_name description : string) : basic_option :=
  {| m_short_names := short_names;
     m_long_names := long_names;
     m_arg_type := arg_optional;
     m_handler := fun a =>
       match a with
       | Some v => h (Some v)
       | None => h None
       end;
     m_arg_name := arg_name;
     m_description := description |}.

(** The constructor taking [required_arg_t]: [assert(a)], then [h] on the
    pointee. *)
Definition option_required_arg (short_names : list ascii)
    (long_names : list string) (h : string -> M St unit)
    (arg_name description : string) : basic_option :=
  {| m_short_names := short_names;
     m_long_names := long_names;
     m_arg_type := arg_required;
     m_handler := fun a =>
       match a with
       | Some v => assert true ;;; h v
       | None => assert false
       end;
     m_arg_name := arg_name;
     m_description := description |}.

(** [match_type match(char_type c) const] *)
Fixpoint match_short_loop (names : list ascii) (c : ascii) : match_type :=
  match names with
  | [] => match_none
  | name :: names' =>
      if Ascii.eqb name c then match_exact else match_short_loop names' c
  end.

Definition match_short (opt : basic_option) (c : ascii) : match_type :=
  match_short_loop (m_short_names opt) c.

(** [match_type match(string_type const &s) const]: the loop over
    [m_long_names], with the local [ret] as an accumulator. *)
Fixpoint match_long_loop (names : list string) (s : string)
    (ret : match_type) : match_type :=
  match names with
  | [] => ret
  | name :: names' =>
      if String.eqb name s then match_exact
      else if Nat.ltb (String.length s) (String.length name)
              && is_end (mismatch s name)
      then match_long_loop names' s match_partial
      else match_long_loop names' s ret
  end.

Definition match_long (opt : basic_option) (s : string) : match_type :=
  match_long_loop (m_long_names opt) s match_none.

(** [arg_type get_arg_type() const noexcept] *)
Definition get_arg_type (opt : basic_option) : arg_type := m_arg_type opt.

(** [void execute()] *)
Definition execute (opt : basic_option) : M St unit :=
  assert (match m_arg_type opt with arg_required => false | _ => true end) ;;;
  m_handler opt None.

(** [void execute(string_type const &arg)] *)
Definition execute_arg (opt : basic_option) (arg : string) : M St unit :=
  assert (match m_arg_type opt with arg_none => false | _ => true end) ;;;
  m_handler opt (Some arg).

(** [std::array<string_type, 3> get_help() const]: the loop that fills
    [ret[0]], with the stream [oss] and the flag [first] threaded
    through. *)
Fixpoint short_help_loop (opt : basic_option) (names : list ascii)
    (first : bool) (oss : string) : string :=
  match names with
  | [] => oss
  | c :: names' =>
      let oss := if first then oss else oss ++ "," in
      let oss := oss ++ "-" ++ String c EmptyString in
      let oss :=
        match m_arg_type opt with
        | arg_optional => oss ++ "[" ++ m_arg_name opt ++ "]"
        | arg_required => oss ++ " " ++ m_arg_name opt
        | arg_none => oss
        end in
      short_help_loop opt names' false oss
  end.

(** The loop that fills [ret[1]]. *)
Fixpoint long_help_loop (opt : basic_option) (names : list string)
    (first : bool) (oss : string) : string :=
  match names with
  | [] => oss
  | s :: names' =>
      let oss := if first then oss else oss ++ "," in
      let oss := oss ++ "--" ++ s in
      let oss :=
        match m_arg_type opt with
        | arg_optional => oss ++ "[=" ++ m_arg_name opt ++ "]"
        | arg_required => oss ++ "=" ++ m_arg_name opt
        | arg_none => oss
        end in
      long_help_loop opt names' false oss
  end.

Definition option_get_help (opt : basic_option) : string * string * string :=
  (short_help_loop opt (m_short_names opt) true "",
   long_help_loop opt (m_long_names opt) true "",
   m_description opt).

End Option.

Arguments m_short_names {St} _.
Arguments m_long_names {St} _.
Arguments m_arg_type {St} _.
Arguments m_handler {St} _ _.
Arguments m_arg_name {St} _.
Arguments m_description {St} _.
Arguments option_no_arg {St}.
Arguments option_optional_arg {St}.
Arguments option_required_arg {St}.
Arguments match_short {St}.
Arguments match_long {St}.
Arguments get_arg_type {St}.
Arguments execute {St}.
Arguments execute_arg {St}.
Arguments short_help_loop {St}.
Arguments long_help_loop {St}.
Arguments option_get_help {St}.

(** ** class basic_parser *)

(** *** Regular expressions

    [std::basic_regex] defaults to the ECMAScript grammar.  The fragment
    that the two patterns of [run] use is modelled: literal characters,
    the atom [.], negated classes, greedy [*] and [+] on such an atom,
    capturing groups, an optional group and concatenation.  In that
    grammar [.] matches every character except a line terminator; for
    [char] these are line feed (10) and carriage return (13).  A negated
    class such as [[^=]] has no such exception. *)
Definition line_terminator (c : ascii) : bool :=
  Ascii.eqb c "010"%char || Ascii.eqb c "013"%char.

(** An atom that matches one character: [.] or [[^cs]]. *)
Inductive char_class : Type :=
| any_char
| none_of (cs : list ascii).

Definition class_matches (cl : char_class) (c : ascii) : bool :=
  match cl with
  | any_char => negb (line_terminator c)
  | none_of cs => negb (existsb (Ascii.eqb c) cs)
  end.

Inductive regex : Type :=
| re_char (c : ascii)
| re_star (cl : char_class)
| re_plus (cl : char_class)
| re_group (n : nat) (r : regex)
| re_optional (r : regex)
| re_seq (r1 r2 : regex).

(** [std::match_results]: the groups that took part in the match, with
    what they matched. *)
Definition match_results : Type := list (nat * string).

(** [match[n]]: [Some] of the characters when [match[n].matched]. *)
Fixpoint sub_match (m : match_results) (n : nat) : option string :=
  match m with
  | [] => None
  | (i, v) :: m' => if Nat.eqb i n then Some v else sub_match m' n
  end.

(** [match.str(n)]: empty for a group that did not take part. *)
Definition match_str (m : match_results) (n : nat) : string :=
  match sub_match m n with
  | Some v => v
  | None => ""
  end.

Fixpoint take (n : nat) (s : string) : string :=
  match n, s with
  | S n', String c s' => String c (take n' s')
  | _, _ => EmptyString
  end.

(** The characters between the position with [s] still to read and the
    later position with [s'] still to read. *)
Definition consumed (s s' : string) : string :=
  take (String.length s - String.length s') s.

(** A greedy repetition of the atom [cl] followed by the continuation [k]:
    the longest run is tried first, then shorter ones. *)
Fixpoint greedy (cl : char_class) (s : string)
    (k : string -> option match_results) : option match_results :=
  match s with
  | String c s' =>
      if class_matches cl c then
        match greedy cl s' k with
        | Some m => Some m
        | None => k s
        end
      else k s
  | EmptyString => k s
  end.

(** Backtracking matching of [r] at the start of [s], with the groups [m]
    matched so far and the continuation [k] for what follows [r]. *)
Fixpoint re_match (r : regex) (s : string) (m : match_results)
    (k : string -> match_results -> option match_results)
    : option match_results :=
  match r with
  | re_char c =>
      match s with
      | String a s' => if Ascii.eqb a c then k s' m else None
      | EmptyString => None
      end
  | re_star cl => greedy cl s (fun s' => k s' m)
  | re_plus cl =>
      match s with
      | String a s' =>
          if class_matches cl a then greedy cl s' (fun s'' => k s'' m)
          else None
      | EmptyString => None
      end
  | re_group n r' =>
      re_match r' s m (fun s' m' => k s' ((n, consumed s s') :: m'))
  | re_optional r' =>
      match re_match r' s m k with
      | Some m' => Some m'
      | None => k s m
      end
  | re_seq r1 r2 => re_match r1 s m (fun s' m' => re_match r2 s' m' k)
  end.

(** [std::regex_match(s, match, r)]: the whole of [s] has to match. *)
Definition regex_match (r : regex) (s : string) : option match_results :=
  re_match r s [] (fun s' m => if is_end s' then Some m else None).

(** The pattern of line 297: two hyphens, group 1 as [[^=]*], then
    optionally, in a group that does not capture, an equals sign and
    group 2 as [.*]. *)
Definition long_pattern : regex :=
  re_seq (re_char "-")
    (re_seq (re_char "-")
       (re_seq (re_group 1 (re_star (none_of ["="%char])))
               (re_optional
                  (re_seq (re_char "=") (re_group 2 (re_star any_char)))))).

(** The pattern of line 342: one hyphen, then group 1 as [.+]. *)
Definition short_pattern : regex :=
  re_seq (re_char "-") (re_group 1 (re_plus any_char)).

(** The test of line 297 with what the branch reads from [match]:
    [match.str(1)], and [match[2]] when [match[2].matched]. *)
Definition regex_match_long (arg : string) : option (string * option string) :=
  match regex_match long_pattern arg with
  | Some m => Some (match_str m 1, sub_match m 2)
  | None => None
  end.

(** The test of line 342 with the range of [match[1]]. *)
Definition regex_match_short (arg : string) : option string :=
  match regex_match short_pattern arg with
  | Some m => Some (match_str m 1)
  | None => None
  end.

(** *** Stream helpers of [get_help] *)

Definition newline : string := String "010"%char EmptyString.

Fixpoint spaces (n : nat) : string :=
  match n with
  | O => EmptyString
  | S n' => String " "%char (spaces n')
  end.

(** [ss << std::left << std::setw(w) << s]: [s], then fill characters up
    to the width [w]; a longer [s] is written whole. *)
Definition setw_left (w : nat) (s : string) : string :=
  s ++ spaces (w - String.length s).

(** The lines that successive [std::getline(desc, ln)] calls deliver before
    one fails: [ln] collects the characters taken since the last line
    feed, and [taken] tells whether the pending call has extracted
    anything; a call that meets the end of the stream at once fails. *)
Fixpoint getlines (desc ln : string) (taken : bool) : list string :=
  match desc with
  | EmptyString => if taken then [ln] else []
  | String c desc' =>
      if Ascii.eqb c "010"%char then ln :: getlines desc' EmptyString false
      else getlines desc' (ln ++ String c EmptyString) true
  end.

(** What one pass through the body of the [for] loop of [run] did to the
    cursor [it]: [Next false] leaves it to the loop's own [++it],
    [Next true] has advanced it once more (the next token was taken as a
    value), [Break] leaves the loop. *)
Inductive control : Type :=
| Next (advanced : bool)
| Break.

Section Parser.

Variable St : Type.

Record basic_parser : Type := {
  m_options : list (basic_option St);
  m_non_option_handler : string -> M St unit;
  m_unrec_option_handler : string -> M St unit;
  m_flag : parse_flag
}.

(** The handler the four-argument constructor installs:
    it throws an [error] whose message is [unrecognized option: ] followed
    by [a]. *)
Definition default_unrec_option_handler (a : string) : M St unit :=
  throw ("unrecognized option: " ++ a).

(** The constructor without an unrecognized-option handler. *)
Definition parser_default (options : list (basic_option St))
    (non_option_handler : string -> M St unit) (flag : parse_flag)
    : basic_parser :=
  {| m_options := options;
     m_non_option_handler := non_option_handler;
     m_unrec_option_handler := default_unrec_option_handler;
     m_flag := flag |}.

(** The constructor with both handlers. *)
Definition parser_with (options : list (basic_option St))
    (non_option_handler unrec_option_handler : string -> M St unit)
    (flag : parse_flag) : basic_parser :=
  {| m_options := options;
     m_non_option_handler := non_option_handler;
     m_unrec_option_handler := unrec_option_handler;
     m_flag := flag |}.

Variable p : basic_parser.

(** [for (; it != last; ++it) { handler( *it ); }] *)
Fixpoint for_each (handler : string -> M St unit) (args : list string)
    : M St unit :=
  match args with
  | [] => ret tt
  | a :: args' => handler a ;;; for_each handler args'
  end.

(** The lambda [find_match] of the long-option branch. *)
Definition find_match_long (optit : list (basic_option St)) (name : string)
    (n : match_type) : list (basic_option St) :=
  find_if (fun opt => match_type_eqb (match_long opt name) n) optit.

(** The lambda [find_match] of the short-option branch. *)
Definition find_match_short (optit : list (basic_option St)) (name : ascii)
    : list (basic_option St) :=
  find_if (fun opt => match_type_eqb (match_short opt name) match_exact) optit.

(** Lines 320-341: the selected option [opt] is run according to its
    argument type; [rest] is the range after [it]. *)
Definition dispatch_long (opt : basic_option St) (name : string)
    (value : option string) (rest : list string) : M St control :=
  match get_arg_type opt with
  | arg_none =>
      match value with
      | Some _ => throw ("argument not allowed: --" ++ name)
      | None => execute opt ;;; ret (Next false)
      end
  | arg_optional =>
      match value with
      | Some v => execute_arg opt v ;;; ret (Next false)
      | None => execute opt ;;; ret (Next false)
      end
  | arg_required =>
      match value with
      | Some v => execute_arg opt v ;;; ret (Next false)
      | None =>
          match rest with
          | [] => throw ("argument required: --" ++ name)
          | next :: _ => execute_arg opt next ;;; ret (Next true)
          end
      end
  end.

(** Lines 299-341: the long-option branch, for the token [arg] whose
    regular expression gave [name] and [value]. *)
Definition run_long (arg name : string) (value : option string)
    (rest : list string) : M St control :=
  match find_match_long (m_options p) name match_exact with
  | [] =>
      match find_match_long (m_options p) name match_partial with
      | [] => m_unrec_option_handler p arg ;;; ret (Next false)
      | opt :: next =>
          match find_match_long next name match_partial with
          | _ :: _ => throw ("ambiguous option: --" ++ name)
          | [] =>
              match find_match_long next name match_exact with
              | _ :: _ => throw ("ambiguous option: --" ++ name)
              | [] => dispatch_long opt name value rest
              end
          end
      end
  | opt :: next =>
      match find_match_long next name match_exact with
      | _ :: _ => throw ("ambiguous option: --" ++ name)
      | [] => dispatch_long opt name value rest
      end
  end.

(** Lines 344-377: the loop over the characters [cit, clast) of a
    short-option cluster; [chars] is that range. *)
Fixpoint run_short (chars : string) (rest : list string) : M St control :=
  match chars with
  | EmptyString => ret (Next false)
  | String name after =>
      match find_match_short (m_options p) name with
      | [] =>
          m_unrec_option_handler p ("-" ++ chars) ;;;
          run_short after rest
      | opt :: next =>
          match find_match_short next name with
          | _ :: _ => throw ("ambiguous option: -" ++ String name EmptyString)
          | [] =>
              match get_arg_type opt with
              | arg_none => execute opt ;;; run_short after rest
              | arg_optional =>
                  (if is_end after then execute opt
                   else execute_arg opt after) ;;;
                  ret (Next false)
              | arg_required =>
                  if is_end after then
                    match rest with
                    | [] =>
                        throw ("argument required: -"
                               ++ String name EmptyString)
                    | next_arg :: _ =>
                        execute_arg opt next_arg ;;; ret (Next true)
                    end
                  else execute_arg opt after ;;; ret (Next false)
              end
          end
      end
  end.

(** Lines 287-387: the body of the [for] loop, at the token [arg] with
    the range [rest] after it. *)
Definition run_body (arg : string) (rest : list string) : M St control :=
  if String.eqb arg "--" then
    for_each (m_non_option_handler p) rest ;;; ret Break
  else
    match regex_match_long arg with
    | Some (name, value) => run_long arg name value rest
    | None =>
        match regex_match_short arg with
        | Some chars => run_short chars rest
        | None =>
            match m_flag p with
            | posixly_correct =>
                for_each (m_non_option_handler p) (arg :: rest) ;;; ret Break
            | flag_none =>
                m_non_option_handler p arg ;;; ret (Next false)
            end
        end
    end.

(** [template <class Iterator> void run(Iterator first, Iterator last)],
    on the range [first, last) as a list. *)
Fixpoint run (args : list string) : M St unit :=
  match args with
  | [] => ret tt
  | arg :: rest =>
      c <- run_body arg rest ;;
      match c with
      | Break => ret tt
      | Next advanced =>
          match rest with
          | [] => ret tt
          | _ :: rest' => if advanced then run rest' else run rest
          end
      end
  end.

(** [void run(int argc, char_type **argv)]: [argv[0]] is skipped. *)
Definition run_argv (argv : list string) : M St unit :=
  run (tl argv).

(** [string_type get_help(string_type const &header) const]: the first
    loop, which collects the rows and the two maxima. *)
Fixpoint help_widths (options : list (basic_option St))
    (helps : list (string * string * string)) (col0 col1 : nat)
    : list (string * string * string) * nat * nat :=
  match options with
  | [] => (helps, col0, col1)
  | opt :: options' =>
      let help := option_get_help opt in
      let col0 := Nat.max col0 (String.length (fst (fst help))) in
      let col1 := Nat.max col1 (String.length (snd (fst help))) in
      help_widths options' (helps ++ [help])%list col0 col1
  end.

(** The [while (std::getline(desc, ln))] loop, over the lines it reads. *)
Fixpoint help_desc_loop (col0 col1 : nat) (lns : list string)
    (fstln : bool) (ss : string) : string :=
  match lns with
  | [] => ss
  | ln :: lns' =>
      let ss :=
        if fstln then ss
        else ss ++ newline ++ setw_left (col0 + col1) "" in
      help_desc_loop col0 col1 lns' false (ss ++ ln)
  end.

(** The second loop, over [helps]. *)
Fixpoint help_rows_loop (col0 col1 : nat)
    (helps : list (string * string * string)) (fstopt : bool)
    (ss : string) : string :=
  match helps with
  | [] => ss
  | help :: helps' =>
      let ss := if fstopt then ss else ss ++ newline in
      let ss := ss ++ setw_left col0 (fst (fst help)) in
      let ss := ss ++ setw_left col1 (snd (fst help)) in
      let ss :=
        help_desc_loop col0 col1 (getlines (snd help) "" false) true ss in
      help_rows_loop col0 col1 helps' false ss
  end.

Definition get_help (header : string) : string :=
  let '(helps, col0, col1) := help_widths (m_options p) [] 0 0 in
  let col0 := S col0 in
  let col1 := S col1 in
  let ss := header ++ newline in
  help_rows_loop col0 col1 helps true ss.

End Parser.

Arguments m_options {St} _.
Arguments m_non_option_handler {St} _ _.
Arguments m_unrec_option_handler {St} _ _.
Arguments m_flag {St} _.
Arguments default_unrec_option_handler {St}.
Arguments parser_default {St}.
Arguments parser_with {St}.
Arguments for_each {St}.
Arguments find_match_long {St}.
Arguments find_match_short {St}.
Arguments dispatch_long {St}.
Arguments run_long {St}.
Arguments run_short {St}.
Arguments run_body {St}.
Arguments run {St}.
Arguments run_argv {St}.
Arguments help_widths {St}.
Arguments get_help {St}.

(** ** Conversions and handler factories

    The helpers at the end of the header.  A captured reference [T &t] is
    the place of the host state that it names, given by how it is read and
    how it is written.  The conversion of [from_string_t] goes through
    [operator>>] of the target type, which is not part of this header: it
    is a parameter, [extract s] being the value read when the extraction
    succeeds and leaves nothing of [s] unread.  A container with
    [push_back] is a list. *)
Section Convenience.

Variable St : Type.

Record reference (T : Type) : Type := {
  load : St -> T;
  store : T -> St -> St
}.

Arguments load {T} _ _.
Arguments store {T} _ _ _.

(** [detail::from_string_t<String, T>::operator()]: the value, or an error
    whose message is [invalid value: ] followed by the string. *)
Definition from_string {T : Type} (extract : string -> option T)
    (s : string) : M St T :=
  match extract s with
  | Some t => ret t
  | None => throw ("invalid value: " ++ s)
  end.

(** The specialization [from_string_t<String, String>]: the string itself. *)
Definition from_string_string (s : string) : M St string := ret s.

(** [t = v] *)
Definition write {T : Type} (t : reference T) (v : T) : M St unit :=
  fun s => (store t v s, Returned tt).

(** [t.push_back(v)] *)
Definition append_to {T : Type} (t : reference (list T)) (v : T) : M St unit :=
  fun s => (store t (load t s ++ [v])%list s, Returned tt).

(** [ignore]: both call forms do nothing. *)
Definition ignore (a : option string) : M St unit := ret tt.

(** [assign_const(t, u)]: both call forms do [t = u]. *)
Definition assign_const {T : Type} (t : reference T) (u : T)
    (a : option string) : M St unit :=
  write t u.

(** [assign_true(t)] and [assign_false(t)] *)
Definition assign_true (t : reference bool) (a : option string) : M St unit :=
  assign_const t true a.

Definition assign_false (t : reference bool) (a : option string) : M St unit :=
  assign_const t false a.

(** [push_back_const(t, u)]: both call forms do [t.push_back(u)]. *)
Definition push_back_const {T : Type} (t : reference (list T)) (u : T)
    (a : option string) : M St unit :=
  append_to t u.

(** [assign_or(t, u)]: [t = u] without a value, the converted value with
    one; [conv] is the [from_string] of the target type. *)
Definition assign_or {T : Type} (t : reference T) (u : T)
    (conv : string -> M St T) (a : option string) : M St unit :=
  match a with
  | None => write t u
  | Some arg => v <- conv arg ;; write t v
  end.

(** [push_back_or(t, u)] *)
Definition push_back_or {T : Type} (t : reference (list T)) (u : T)
    (conv : string -> M St T) (a : option string) : M St unit :=
  match a with
  | None => append_to t u
  | Some arg => v <- conv arg ;; append_to t v
  end.

(** [assign(t)] *)
Definition assign {T : Type} (t : reference T) (conv : string -> M St T)
    (arg : string) : M St unit :=
  v <- conv arg ;; write t v.

(** [push_back(t)] *)
Definition push_back {T : Type} (t : reference (list T))
    (conv : string -> M St T) (arg : string) : M St unit :=
  v <- conv arg ;; append_to t v.

End Convenience.

Arguments load {St T} _ _.
Arguments store {St T} _ _ _.
Arguments from_string {St T}.
Arguments from_string_string {St}.
Arguments write {St T}.
Arguments append_to {St T}.
Arguments ignore {St}.
Arguments assign_const {St T}.
Arguments assign_true {St}.
Arguments assign_false {St}.
Arguments push_back_const {St T}.
Arguments assign_or {St T}.
Arguments push_back_or {St T}.
Arguments assign {St T}.
Arguments push_back {St T}.

(** ** Recording handlers

    A host whose state is the list of handler calls made so far.  The
    option declared at position [i] records [OptionHandler i a]; [a] is
    [None] for the call without a value.  None of these handlers throws,
    except the default unrecognized-option handler. *)
Module Log.

Inductive event : Type :=
| OptionHandler (i : nat) (arg : option string)
| NonOptionHandler (a : string)
| UnrecOptionHandler (a : string).

Definition trace : Type := list event.

Definition log (e : event) : M trace unit :=
  fun t => ((t ++ [e])%list, Returned tt).

(** What a host writes in an option's initializer, handler apart. *)
Record decl : Type := {
  short_names : list ascii;
  long_names : list string;
  arity : arg_type;
  arg_name : string;
  description : string
}.

Definition option_of (i : nat) (d : decl) : basic_option trace :=
  match arity d with
  | arg_none =>
      option_no_arg (short_names d) (long_names d)
        (log (OptionHandler i None)) (description d)
  | arg_optional =>
      option_optional_arg (short_names d) (long_names d)
        (fun a => log (OptionHandler i a)) (arg_name d) (description d)
  | arg_required =>
      option_required_arg (short_names d) (long_names d)
        (fun v => log (OptionHandler i (Some v))) (arg_name d) (description d)
  end.

Fixpoint options_from (i : nat) (ds : list decl) : list (basic_option trace) :=
  match ds with
  | [] => []
  | d :: ds' => option_of i d :: options_from (S i) ds'
  end.

(** A parser over [ds]; [default_unrec] chooses between the default
    unrecognized-option handler and one that records and returns. *)
Definition parser_of (ds : list decl) (default_unrec : bool)
    (flag : parse_flag) : basic_parser trace :=
  if default_unrec then
    parser_default (options_from 0 ds)
      (fun a => log (NonOptionHandler a)) flag
  else
    parser_with (options_from 0 ds)
      (fun a => log (NonOptionHandler a))
      (fun a => log (UnrecOptionHandler a)) flag.

End Log.

(** * Vocabulary of the statements *)

(** [.*] against a whole string: no character is a line terminator. *)
Fixpoint dot_star (s : string) : bool :=
  match s with
  | EmptyString => true
  | String c s' => negb (line_terminator c) && dot_star s'
  end.

(** The longest prefix of [s] without an equals sign, and what follows. *)
Fixpoint not_equals_star (s : string) : string * string :=
  match s with
  | EmptyString => (EmptyString, EmptyString)
  | String c s' =>
      if Ascii.eqb c "="%char then (EmptyString, s)
      else let (name, after) := not_equals_star s' in (String c name, after)
  end.

(** What [regex_match_long] comes to, without the matcher: see
    [regex_match_long_shape]. *)
Definition long_shape (arg : string) : option (string * option string) :=
  match arg with
  | String a (String b r) =>
      if Ascii.eqb a "-" && Ascii.eqb b "-" then
        let (name, after) := not_equals_star r in
        match after with
        | EmptyString => Some (name, None)
        | String _ value =>
            if dot_star value then Some (name, Some value) else None
        end
      else None
  | _ => None
  end.

(** What [regex_match_short] comes to: see [regex_match_short_shape]. *)
Definition short_shape (arg : string) : option string :=
  match arg with
  | String a (String c cs) =>
      if Ascii.eqb a "-" && dot_star (String c cs) then Some (String c cs)
      else None
  | _ => None
  end.

(** [s] is a prefix of [name] and shorter than it. *)
Definition proper_prefix (s name : string) : Prop :=
  exists t, t <> "" /\ name = s ++ t.

(** Where the cursor stands after a pass that returned [Next advanced]. *)
Definition advance (advanced : bool) (rest : list string) : list string :=
  match rest with
  | [] => []
  | _ :: rest' => if advanced then rest' else rest
  end.

(** [reaches p args s rest s']: started on [args] in state [s], the loop
    of [run] arrives at the top of a pass with [rest] still to read and
    the host in state [s']. *)
Inductive reaches {St : Type} (p : basic_parser St)
    : list string -> St -> list string -> St -> Prop :=
| reaches_here (args : list string) (s : St) : reaches p args s args s
| reaches_pass (arg : string) (rest : list string) (s s1 : St)
    (advanced : bool) (rest' : list string) (s' : St) :
    run_body p arg rest s = (s1, Returned (Next advanced)) ->
    reaches p (advance advanced rest) s1 rest' s' ->
    reaches p (arg :: rest) s rest' s'.

(** No character of [s] is an equals sign. *)
Fixpoint no_equals (s : string) : bool :=
  match s with
  | EmptyString => true
  | String c s' => negb (Ascii.eqb c "="%char) && no_equals s'
  end.

(** What follows the name in a long-option token: nothing, or an equals
    sign and the value. *)
Definition value_suffix (value : option string) : string :=
  match value with
  | None => ""
  | Some v => "=" ++ v
  end.

(** What looking a name up among the options comes to. *)
Inductive resolution (St : Type) : Type :=
| Unrecognized
| Ambiguous
| Selected (opt : basic_option St).

Arguments Unrecognized {St}.
Arguments Ambiguous {St}.
Arguments Selected {St} opt.

(** The options whose [match_long] on [name] is [n], in declaration order. *)
Definition matching {St : Type} (options : list (basic_option St))
    (name : string) (n : match_type) : list (basic_option St) :=
  filter (fun opt => match_type_eqb (match_long opt name) n) options.

(** The resolution of a long name as the specification words it (section
    4.2, rule 2): the options that exact-match are looked at first; one
    selects it, several are an ambiguity; with none, the options that
    partial-match decide in the same way, and none at all means the name
    is unrecognized.  [run_long_resolve] compares it with the code. *)
Definition resolve_long {St : Type} (options : list (basic_option St))
    (name : string) : resolution St :=
  match matching options name match_exact with
  | [opt] => Selected opt
  | _ :: _ :: _ => Ambiguous
  | [] =>
      match matching options name match_partial with
      | [] => Unrecognized
      | [opt] => Selected opt
      | _ :: _ :: _ => Ambiguous
      end
  end.

(** The options that declare the short name [c], in declaration order. *)
Definition matching_short {St : Type} (options : list (basic_option St))
    (c : ascii) : list (basic_option St) :=
  filter (fun opt => match_type_eqb (match_short opt c) match_exact) options.

(** The resolution of a short name as the specification words it (section
    4.2, rule 3): no option declaring [c] makes it unrecognized, one is
    selected, several are an ambiguity.  [run_short_resolve] compares it
    with the code. *)
Definition resolve_short {St : Type} (options : list (basic_option St))
    (c : ascii) : resolution St :=
  match matching_short options c with
  | [] => Unrecognized
  | [opt] => Selected opt
  | _ :: _ :: _ => Ambiguous
  end.

(** What the cluster loop does at the character [name] once it has
    selected [opt] (lines 359-376 of the header), with [after] left in the
    cluster; it only serves to state [run_short_resolve]. *)
Definition dispatch_short {St : Type} (p : basic_parser St)
    (opt : basic_option St) (name : ascii) (after : string)
    (rest : list string) : M St control :=
  match get_arg_type opt with
  | arg_none => execute opt ;;; run_short p after rest
  | arg_optional =>
      (if is_end after then execute opt else execute_arg opt after) ;;;
      ret (Next false)
  | arg_required =>
      if is_end after then
        match rest with
        | [] => throw ("argument required: -" ++ String name EmptyString)
        | next_arg :: _ => execute_arg opt next_arg ;;; ret (Next true)
        end
      else execute_arg opt after ;;; ret (Next false)
  end.

(** [raises kind r]: the result [r] is a thrown error whose message starts
    with [kind]. *)
Definition raises {St A : Type} (kind : string) (r : St * outcome A) : Prop :=
  exists msg, snd r = Thrown (error msg) /\ String.prefix kind msg = true.

(** Two or more options exact-match [name], or none does and two or more
    partial-match it. *)
Definition ambiguous_long {St : Type} (options : list (basic_option St))
    (name : string) : Prop :=
  2 <= List.length (matching options name match_exact) \/
  (List.length (matching options name match_exact) = 0 /\
   2 <= List.length (matching options name match_partial)).

(** The cluster loop goes on past the character [c]: [c] selects an option
    without an argument, or no option declares it and the handler for
    unrecognized options returns. *)
Definition goes_on (ds : list Log.decl) (du : bool) (c : ascii) : Prop :=
  (exists opt, resolve_short (Log.options_from 0 ds) c = Selected opt /\
               get_arg_type opt = arg_none) \/
  (resolve_short (Log.options_from 0 ds) c = Unrecognized /\ du = false).

Fixpoint all_go_on (ds : list Log.decl) (du : bool) (pre : string) : Prop :=
  match pre with
  | EmptyString => True
  | String c pre' => goes_on ds du c /\ all_go_on ds du pre'
  end.

(** The loop gets through all of the cluster but its last character, and
    that one selects an option with a required argument. *)
Definition ends_required (ds : list Log.decl) (du : bool) (chars : string)
    : Prop :=
  exists pre c opt,
    chars = pre ++ String c "" /\
    all_go_on ds du pre /\
    resolve_short (Log.options_from 0 ds) c = Selected opt /\
    get_arg_type opt = arg_required.

(** One option's block: its two fields, each padded to its column, then
    the lines of the description, the second and later ones on lines of
    their own behind [col0 + col1] spaces. *)
Definition help_block (col0 col1 : nat) (help : string * string * string)
    : string :=
  setw_left col0 (fst (fst help)) ++
  setw_left col1 (snd (fst help)) ++
  String.concat (newline ++ spaces (col0 + col1))
                (getlines (snd help) "" false).

(** The width of the widest short field ([true]) or long field ([false]). *)
Definition widest {St : Type} (short : bool) (options : list (basic_option St))
    : nat :=
  list_max (map (fun opt =>
                   String.length
                     (if short then fst (fst (option_get_help opt))
                      else snd (fst (option_get_help opt))))
                options).

(** What [basic_option::get_help] appends to a short alias for the
    argument: nothing, the name in brackets, or a space and the name. *)
Definition short_arg_suffix {St : Type} (opt : basic_option St) : string :=
  match m_arg_type opt with
  | arg_none => ""
  | arg_optional => "[" ++ m_arg_name opt ++ "]"
  | arg_required => " " ++ m_arg_name opt
  end.

(** What it appends to a long alias. *)
Definition long_arg_suffix {St : Type} (opt : basic_option St) : string :=
  match m_arg_type opt with
  | arg_none => ""
  | arg_optional => "[=" ++ m_arg_name opt ++ "]"
  | arg_required => "=" ++ m_arg_name opt
  end.

(** [safe m]: in no state does [m] end in a failed assertion. *)
Definition safe {St A : Type} (m : M St A) : Prop :=
  forall s, snd (m s) <> AssertionFailed.

(** The options a host can make: one of the three constructors around a
    handler that fails no assertion of its own. *)
Inductive built {St : Type} : basic_option St -> Prop :=
| built_no_arg (short_names : list ascii) (long_names : list string)
    (h : M St unit) (description : string) :
    safe h ->
    built (option_no_arg short_names long_names h description)
| built_optional_arg (short_names : list ascii) (long_names : list string)
    (h : option string -> M St unit) (arg_name description : string) :
    (forall a, safe (h a)) ->
    built (option_optional_arg short_names long_names h arg_name description)
| built_required_arg (short_names : list ascii) (long_names : list string)
    (h : string -> M St unit) (arg_name description : string) :
    (forall v, safe (h v)) ->
    built (option_required_arg short_names long_names h arg_name description).

(** The calls without a value of the stored handlers of [opts], in order. *)
Fixpoint call_all {St : Type} (opts : list (basic_option St)) : M St unit :=
  match opts with
  | [] => ret tt
  | opt :: opts' => m_handler opt None ;;; call_all opts'
  end.

(** [flags p pre opts]: each character of [pre] selects an option without
    an argument, and [opts] are those options in the order of [pre]. *)
Inductive flags {St : Type} (p : basic_parser St)
    : string -> list (basic_option St) -> Prop :=
| flags_nil : flags p "" []
| flags_cons (c : ascii) (pre : string) (opt : basic_option St)
    (opts : list (basic_option St)) :
    resolve_short (m_options p) c = Selected opt ->
    get_arg_type opt = arg_none ->
    flags p pre opts ->
    flags p (String c pre) (opt :: opts).

(** A token that [run] hands to the non-option handler whatever the
    options are: one that does not start with a hyphen, or the lone
    hyphen. *)
Definition operand (tok : string) : bool :=
  match tok with
  | String c (String _ _) => negb (Ascii.eqb c "-")
  | _ => true
  end.

(** Whether [desc] ends with a line feed. *)
Fixpoint ends_with_newline (desc : string) : bool :=
  match desc with
  | EmptyString => false
  | String c EmptyString => Ascii.eqb c "010"%char
  | String _ desc' => ends_with_newline desc'
  end.

(** Reading a reference right after writing it gives what was written. *)
Definition reads_back {St T : Type} (t : reference St T) : Prop :=
  forall v s, load t (store t v s) = v.

(** A host with one counter, for the examples: the state is the counter,
    and the stand-in for the extraction reads the digit [3] only. *)
Definition counter : reference nat nat :=
  {| load := fun s => s; store := fun v _ => v |}.

Definition extract_three (s : string) : option nat :=
  if String.eqb s "3" then Some 3 else None.

Definition count_parser : basic_parser nat :=
  parser_default
    [option_required_arg ["c"%char] ["count"]
       (assign counter (from_string extract_three)) "N" "";
     option_optional_arg ["l"%char] ["level"]
       (assign_or counter 7 (from_string extract_three)) "N" ""]
    (fun a => ignore (Some a)) flag_none.

(** A host with one list of strings. *)
Definition collected : reference (list string) (list string) :=
  {| load := fun s => s; store := fun v _ => v |}.

Definition libdir_parser : basic_parser (list string) :=
  parser_default
    [option_required_arg ["L"%char] ["libdir"]
       (push_back collected from_string_string) "DIR" ""]
    (fun a => ignore (Some a)) flag_none.

(** No character of [s] is a line feed. *)
Fixpoint no_newline (s : string) : bool :=
  match s with
  | EmptyString => true
  | String c s' => negb (Ascii.eqb c "010"%char) && no_newline s'
  end.

(** What may follow the hyphen of a short-option token: one or more
    characters, the first not a hyphen, none a line feed or a carriage
    return. *)
Definition cluster (chars : string) : bool :=
  match chars with
  | EmptyString => false
  | String c _ => negb (Ascii.eqb c "-") && dot_star chars
  end.

(** An attached value, if there is one, holds no line feed and no carriage
    return. *)
Definition plain_value (value : option string) : bool :=
  match value with
  | None => true
  | Some v => dot_star v
  end.

(** ** Declarations used in the examples *)

(** The declaration used in the examples below: [--help], no argument. *)
Definition help_decl : Log.decl :=
  {| Log.short_names := ["h"%char];
     Log.long_names := ["help"];
     Log.arity := arg_none;
     Log.arg_name := "";
     Log.description := "show help message" |}.

(** The declaration of the end-to-end example: [-v], no argument. *)
Definition v_decl : Log.decl :=
  {| Log.short_names := ["v"%char];
     Log.long_names := [];
     Log.arity := arg_none;
     Log.arg_name := "";
     Log.description := "" |}.

(** The declaration [--output[=FILE]], optional argument. *)
Definition output_decl : Log.decl :=
  {| Log.short_names := ["o"%char];
     Log.long_names := ["output"];
     Log.arity := arg_optional;
     Log.arg_name := "FILE";
     Log.description := "write output to FILE" |}.

(** The declarations of the cluster example: [-a] without an argument and
    [-b] with a required one. *)
Definition a_decl : Log.decl :=
  {| Log.short_names := ["a"%char];
     Log.long_names := [];
     Log.arity := arg_none;
     Log.arg_name := "";
     Log.description := "" |}.

Definition b_decl : Log.decl :=
  {| Log.short_names := ["b"%char];
     Log.long_names := [];
     Log.arity := arg_required;
     Log.arg_name := "ARG";
     Log.description := "" |}.

(** The declarations of the ambiguity example. *)
Definition long_decl (name : string) : Log.decl :=
  {| Log.short_names := [];
     Log.long_names := [name];
     Log.arity := arg_none;
     Log.arg_name := "";
     Log.description := "" |}.

(** The declaration of an option with a description of two lines. *)
Definition libdir_decl : Log.decl :=
  {| Log.short_names := ["L"%char];
     Log.long_names := ["libdir"];
     Log.arity := arg_required;
     Log.arg_name := "DIR";
     Log.description := "library directory" ++ newline ++ "(repeatable)" |}.

(** * Properties *)


(** ** Matching of long names *)

Lemma mismatch_is_end (s name : string) :
  is_end (mismatch s name) = true <-> exists t, name = s ++ t.
Proof.
  revert name; induction s as [|a s IH]; intros name; simpl.
  - split; [intros _; exists name; reflexivity | reflexivity].
  - destruct name as [|b name]; simpl.
    + split; [discriminate | intros [t Ht]; discriminate].
    + destruct (Ascii.eqb_spec a b) as [->|Hab].
      * rewrite IH. split; intros [t Ht]; exists t; congruence.
      * simpl. split; [discriminate | intros [t Ht]; congruence].
Qed.

Lemma append_length (s t : string) :
  String.length (s ++ t) = String.length s + String.length t.
Proof. induction s; simpl; congruence. Qed.

Lemma append_assoc (s t u : string) : (s ++ t) ++ u = s ++ (t ++ u).
Proof. induction s; simpl; congruence. Qed.

Lemma append_nil_r (s : string) : s ++ "" = s.
Proof. induction s; simpl; congruence. Qed.

Lemma partial_test_spec (s name : string) :
  Nat.ltb (String.length s) (String.length name) && is_end (mismatch s name)
    = true
  <-> proper_prefix s name.
Proof.
  rewrite andb_true_iff, Nat.ltb_lt, mismatch_is_end. unfold proper_prefix.
  split.
  - intros [Hlt [t Ht]]. exists t. split; [|exact Ht].
    intros ->. subst name. rewrite append_length in Hlt. simpl in Hlt. lia.
  - intros [t [Hne Ht]]. split; [|exists t; exact Ht].
    subst name. rewrite append_length. destruct t; [congruence|simpl; lia].
Qed.

Lemma match_long_loop_exact (names : list string) (s : string) (ret : match_type) :
  ret <> match_exact ->
  (match_long_loop names s ret = match_exact <-> In s names).
Proof.
  revert ret; induction names as [|name names IH]; intros ret Hret; simpl.
  - tauto.
  - destruct (String.eqb_spec name s) as [->|Hne].
    + tauto.
    + destruct (_ && _); rewrite IH by congruence; tauto.
Qed.

Lemma match_long_loop_partial (names : list string) (s : string) (ret : match_type) :
  match_long_loop names s ret = match_partial <->
  ~ In s names /\
  (ret = match_partial \/ exists name, In name names /\ proper_prefix s name).
Proof.
  revert ret; induction names as [|name names IH]; intros ret; simpl.
  - split; [intros ->; split; [tauto|left; reflexivity]|].
    intros [_ [H|[name [[] _]]]]; exact H.
  - destruct (String.eqb_spec name s) as [->|Hne].
    + split; [discriminate | tauto].
    + destruct (_ && _) eqn:Hp; rewrite IH.
      * apply partial_test_spec in Hp.
        split; intros [Hn _]; (split; [tauto|]).
        -- right. exists name. tauto.
        -- left. reflexivity.
      * assert (Hnp : ~ proper_prefix s name).
        { intros H. apply partial_test_spec in H. congruence. }
        split; intros [Hn H]; (split; [tauto|]).
        -- destruct H as [H|[l [Hl Hpl]]]; [tauto|right; exists l; tauto].
        -- destruct H as [H|[l [[Hl|Hl] Hpl]]];
             [tauto|subst; tauto|right; exists l; tauto].
Qed.

(** C3 (as amended): [match_long] returns [exact] exactly when [name] is one
    of the declared long names; otherwise it returns [partial] exactly when
    [name] is a proper prefix (possibly the empty string) of at least one
    declared long name; otherwise it returns [none]. *)
Theorem match_long_spec (St : Type) (opt : basic_option St) (name : string) :
  (match_long opt name = match_exact <-> In name (m_long_names opt)) /\
  (match_long opt name = match_partial <->
     ~ In name (m_long_names opt) /\
     exists l, In l (m_long_names opt) /\ proper_prefix name l) /\
  (match_long opt name = match_none <->
     ~ In name (m_long_names opt) /\
     ~ exists l, In l (m_long_names opt) /\ proper_prefix name l).
Proof.
  unfold match_long.
  assert (He := match_long_loop_exact (m_long_names opt) name match_none
                  ltac:(discriminate)).
  pose proof (match_long_loop_partial (m_long_names opt) name match_none) as Hp.
  split; [|split].
  - exact He.
  - rewrite Hp. split; intros [Hn H]; (split; [exact Hn|]).
    + destruct H as [H|H]; [discriminate|exact H].
    + right; exact H.
  - destruct (match_long_loop (m_long_names opt) name match_none) eqn:E.
    + split; [intros _|reflexivity].
      split.
      * intros Hin. assert (match_none = match_exact) by (apply He; tauto).
        discriminate.
      * intros Hex. assert (match_none = match_partial) by (apply Hp; split;
          [intros Hin; assert (match_none = match_exact) by (apply He; tauto);
           discriminate | right; exact Hex]).
        discriminate.
    + split; [discriminate|]. intros [Hn _]. exfalso. apply Hn.
      apply He. reflexivity.
    + split; [discriminate|]. intros [Hn Hex]. exfalso.
      destruct Hp as [Hp _]. destruct (Hp eq_refl) as [_ [H|H]];
        [discriminate|tauto].
Qed.

(** C3 (the claim as stated fails): the empty name is not a declared long
    name of [--help], it is not a non-empty string, and yet [match_long]
    answers [partial] for it. *)
Lemma match_long_empty_name_is_partial :
  ~ In "" (m_long_names (Log.option_of 0 help_decl)) /\
  match_long (Log.option_of 0 help_decl) "" = match_partial.
Proof.
  split; [|reflexivity].
  simpl. intros [H|[]]. discriminate H.
Qed.

(** ** The handler monad *)

Lemma bind_ret_unit (St : Type) (m : M St unit) (s : St) :
  bind m (fun _ => ret tt) s = m s.
Proof.
  unfold bind, ret. destruct (m s) as [s' [[]| |]]; reflexivity.
Qed.

Lemma bind_assoc (St A B C : Type) (m : M St A) (k : A -> M St B)
    (k' : B -> M St C) (s : St) :
  bind (bind m k) k' s = bind m (fun a => bind (k a) k') s.
Proof.
  unfold bind. destruct (m s) as [s' [a| |]]; reflexivity.
Qed.

Lemma bind_ext (St A B : Type) (m : M St A) (k k' : A -> M St B) (s : St) :
  (forall a s', k a s' = k' a s') -> bind m k s = bind m k' s.
Proof.
  intros H. unfold bind. destruct (m s) as [s' [a| |]]; auto.
Qed.

(** ** The loop of [run] *)

Lemma run_cons (St : Type) (p : basic_parser St) (arg : string)
    (rest : list string) (s : St) :
  run p (arg :: rest) s =
  bind (run_body p arg rest)
       (fun c => match c with
                 | Break => ret tt
                 | Next advanced => run p (advance advanced rest)
                 end) s.
Proof.
  simpl. apply bind_ext. intros [adv|] s'; [|reflexivity].
  destruct rest as [|x rest']; [reflexivity|]. destruct adv; reflexivity.
Qed.

(** What [run] does from a point its loop reaches is what it does on the
    whole input, so a statement about [run p (arg :: rest) s] for every
    [rest] and [s] speaks of every token the loop arrives at. *)
Lemma run_reaches (St : Type) (p : basic_parser St) (args rest : list string)
    (s s' : St) :
  reaches p args s rest s' -> run p args s = run p rest s'.
Proof.
  induction 1 as [|arg rest s s1 adv rest' s' Hbody _ IH]; [reflexivity|].
  rewrite run_cons. unfold bind at 1. rewrite Hbody. exact IH.
Qed.

(** ** The separator [--] *)

Lemma for_each_log (handler : string -> Log.event) (args : list string)
    (t : Log.trace) :
  for_each (fun a => Log.log (handler a)) args t
  = ((t ++ map handler args)%list, Returned tt).
Proof.
  revert t; induction args as [|a args IH]; intros t; simpl.
  - unfold ret. rewrite app_nil_r. reflexivity.
  - unfold bind, Log.log. rewrite IH, <- app_assoc. reflexivity.
Qed.

Lemma parser_of_non_option (ds : list Log.decl) (du : bool) (flag : parse_flag) :
  m_non_option_handler (Log.parser_of ds du flag)
  = fun a => Log.log (Log.NonOptionHandler a).
Proof. destruct du; reflexivity. Qed.

Lemma parser_of_flag (ds : list Log.decl) (du : bool) (flag : parse_flag) :
  m_flag (Log.parser_of ds du flag) = flag.
Proof. destruct du; reflexivity. Qed.

Lemma parser_of_options (ds : list Log.decl) (du : bool) (flag : parse_flag) :
  m_options (Log.parser_of ds du flag) = Log.options_from 0 ds.
Proof. destruct du; reflexivity. Qed.

(** C6: at a token equal to [--], [run] does nothing but call the
    non-option handler on each remaining token, in order, whatever the
    parser's options, handlers and mode are; with recording handlers the
    calls made are exactly one non-option call per remaining token, in the
    original order, and [run] returns. *)
Theorem run_separator :
  (forall (St : Type) (p : basic_parser St) (rest : list string) (s : St),
      run p ("--" :: rest) s = for_each (m_non_option_handler p) rest s) /\
  (forall (ds : list Log.decl) (default_unrec : bool) (flag : parse_flag)
          (rest : list string) (t : Log.trace),
      run (Log.parser_of ds default_unrec flag) ("--" :: rest) t
      = ((t ++ map Log.NonOptionHandler rest)%list, Returned tt)).
Proof.
  assert (G : forall (St : Type) (p : basic_parser St) (rest : list string)
                     (s : St),
             run p ("--" :: rest) s = for_each (m_non_option_handler p) rest s).
  { intros St p rest s. rewrite run_cons. unfold run_body.
    rewrite String.eqb_refl, bind_assoc.
    rewrite <- (bind_ret_unit _ (for_each (m_non_option_handler p) rest)).
    apply bind_ext. reflexivity. }
  split; [exact G|].
  intros ds du flag rest t. rewrite G, parser_of_non_option.
  apply for_each_log.
Qed.

(** ** Posixly-correct mode *)

(** C8: in posixly-correct mode, at a token that is not [--] and that
    neither option pattern accepts, [run] does nothing but call the
    non-option handler on that token and on every token after it, in
    order; with recording handlers the calls made are exactly one
    non-option call per token from that point on. *)
Theorem run_posixly_correct_stops :
  (forall (St : Type) (p : basic_parser St) (tok : string)
          (rest : list string) (s : St),
      m_flag p = posixly_correct ->
      tok <> "--" ->
      regex_match_long tok = None ->
      regex_match_short tok = None ->
      run p (tok :: rest) s
      = for_each (m_non_option_handler p) (tok :: rest) s) /\
  (forall (ds : list Log.decl) (default_unrec : bool) (tok : string)
          (rest : list string) (t : Log.trace),
      tok <> "--" ->
      regex_match_long tok = None ->
      regex_match_short tok = None ->
      run (Log.parser_of ds default_unrec posixly_correct) (tok :: rest) t
      = ((t ++ map Log.NonOptionHandler (tok :: rest))%list, Returned tt)).
Proof.
  assert (G : forall (St : Type) (p : basic_parser St) (tok : string)
                     (rest : list string) (s : St),
             m_flag p = posixly_correct ->
             tok <> "--" ->
             regex_match_long tok = None ->
             regex_match_short tok = None ->
             run p (tok :: rest) s
             = for_each (m_non_option_handler p) (tok :: rest) s).
  { intros St p tok rest s Hflag Hsep Hlong Hshort.
    rewrite run_cons. unfold run_body.
    destruct (String.eqb_spec tok "--") as [E|_]; [contradiction|].
    rewrite Hlong, Hshort, Hflag, bind_assoc.
    rewrite <- (bind_ret_unit _ (for_each (m_non_option_handler p) (tok :: rest))).
    apply bind_ext. reflexivity. }
  split; [exact G|].
  intros ds du tok rest t Hsep Hlong Hshort.
  rewrite G by (try apply parser_of_flag; assumption).
  rewrite parser_of_non_option. apply for_each_log.
Qed.

Lemma run_posixly_correct_stops_example :
  run (Log.parser_of [v_decl] true posixly_correct)
      ["file1"; "-v"; "file2"] []
  = ([Log.NonOptionHandler "file1"; Log.NonOptionHandler "-v";
      Log.NonOptionHandler "file2"], Returned tt).
Proof.
  apply (proj2 run_posixly_correct_stops [v_decl] true "file1"
           ["-v"; "file2"] []).
  - discriminate.
  - reflexivity.
  - reflexivity.
Defined.

(** ** The shape of a long-option token *)

Lemma take_append (s t : string) : take (String.length s) (s ++ t) = s.
Proof. induction s; simpl; [destruct t; reflexivity|congruence]. Qed.

Lemma consumed_append (s t : string) : consumed (s ++ t) t = s.
Proof.
  unfold consumed. rewrite append_length, Nat.add_sub. apply take_append.
Qed.

Lemma consumed_all (s : string) : consumed s "" = s.
Proof.
  rewrite <- (append_nil_r s) at 1. apply consumed_append.
Qed.

Lemma not_equals_star_split (s : string) :
  s = fst (not_equals_star s) ++ snd (not_equals_star s).
Proof.
  induction s as [|c s IH]; simpl; [reflexivity|].
  destruct (Ascii.eqb c "="); [reflexivity|].
  destruct (not_equals_star s) as [n a]. simpl in *. congruence.
Qed.

(** A greedy [[^=]*] in front of something that wants the end of the input
    or an equals sign stops at the first equals sign. *)
Lemma greedy_not_equals (s : string) (k : string -> option match_results) :
  (forall c s', Ascii.eqb c "=" = false -> k (String c s') = None) ->
  greedy (none_of ["="%char]) s k = k (snd (not_equals_star s)).
Proof.
  intros Hk. induction s as [|c s IH]; simpl; [reflexivity|].
  destruct (Ascii.eqb c "=") eqn:E; simpl; [reflexivity|].
  rewrite IH. destruct (not_equals_star s) as [n a]. simpl.
  destruct (k a); [reflexivity|]. apply Hk. exact E.
Qed.

(** A greedy [.*] in front of the end of the input takes all of it or
    fails. *)
Lemma greedy_dot_end (v : string) (f : string -> option match_results) :
  greedy any_char v (fun s' => if is_end s' then f s' else None)
  = if dot_star v then f "" else None.
Proof.
  induction v as [|c v IH]; simpl; [reflexivity|].
  destruct (line_terminator c); simpl; [reflexivity|].
  rewrite IH. destruct (dot_star v); [|reflexivity].
  destruct (f ""); reflexivity.
Qed.

Lemma not_equals_star_after (s : string) (e : ascii) (value : string) :
  snd (not_equals_star s) = String e value -> e = "="%char.
Proof.
  induction s as [|c s IH]; simpl; [discriminate|].
  destruct (Ascii.eqb_spec c "=") as [->|Hc]; simpl.
  - intros H. inversion H. reflexivity.
  - destruct (not_equals_star s) as [n a]. exact IH.
Qed.

Lemma regex_match_long_shape (arg : string) :
  regex_match_long arg = long_shape arg.
Proof.
  unfold regex_match_long, regex_match, long_pattern, long_shape.
  destruct arg as [|a [|b r]]; cbn [re_match].
  - reflexivity.
  - destruct (Ascii.eqb a "-"); reflexivity.
  - destruct (Ascii.eqb a "-"); [|reflexivity].
    destruct (Ascii.eqb b "-"); [|reflexivity].
    cbn [andb]. rewrite greedy_not_equals.
    + pose proof (not_equals_star_split r) as Hsplit.
      pose proof (not_equals_star_after r) as Hafter.
      destruct (not_equals_star r) as [name after]. cbn [fst snd] in *.
      rewrite Hsplit, consumed_append.
      destruct after as [|e value].
      * reflexivity.
      * rewrite (Hafter e value eq_refl), Ascii.eqb_refl.
        change (greedy any_char value _)
          with (greedy any_char value
                  (fun s' => if is_end s'
                             then (fun s'' => Some [(2, consumed value s'');
                                                    (1, name)]) s'
                             else None)).
        rewrite greedy_dot_end.
        destruct (dot_star value).
        -- rewrite consumed_all. reflexivity.
        -- reflexivity.
    + intros c s' Hc. rewrite Hc. reflexivity.
Qed.

Lemma regex_match_short_shape (arg : string) :
  regex_match_short arg = short_shape arg.
Proof.
  unfold regex_match_short, regex_match, short_pattern, short_shape.
  destruct arg as [|a [|c cs]]; cbn [re_match].
  - reflexivity.
  - destruct (Ascii.eqb a "-"); reflexivity.
  - destruct (Ascii.eqb a "-"); [|reflexivity]. cbn [andb dot_star class_matches].
    destruct (line_terminator c); [reflexivity|]. cbn [negb andb].
    change (greedy any_char cs _)
      with (greedy any_char cs
              (fun s' => if is_end s'
                         then (fun s'' => Some [(1, consumed (String c cs) s'')])
                                s'
                         else None)).
    rewrite greedy_dot_end.
    destruct (dot_star cs); [|reflexivity].
    rewrite consumed_all. reflexivity.
Qed.

Lemma not_equals_star_name (name : string) (value : option string) :
  no_equals name = true ->
  not_equals_star (name ++ value_suffix value) = (name, value_suffix value).
Proof.
  intros H. induction name as [|c name IH]; simpl in *.
  - destruct value as [v|]; reflexivity.
  - apply andb_true_iff in H. destruct H as [Hc Hn].
    apply negb_true_iff in Hc. rewrite Hc, (IH Hn). reflexivity.
Qed.

Lemma not_equals_star_inv (r name after : string) :
  not_equals_star r = (name, after) ->
  r = name ++ after /\ no_equals name = true /\
  (after = "" \/ exists v, after = "=" ++ v).
Proof.
  revert name after; induction r as [|c r IH]; intros name after; simpl.
  - intros H. inversion H. auto.
  - destruct (Ascii.eqb_spec c "="%char) as [->|Hc].
    + intros H. inversion H. simpl. split; [reflexivity|].
      split; [reflexivity|]. right. exists r. reflexivity.
    + destruct (not_equals_star r) as [n a]. intros H. inversion H; subst.
      destruct (IH n after eq_refl) as [Hr [Hn Ha]].
      simpl. split; [congruence|]. split; [|exact Ha].
      rewrite Hn. apply Ascii.eqb_neq in Hc. rewrite Hc. reflexivity.
Qed.

(** The tokens the long-option pattern accepts are exactly two hyphens, a
    name free of equals signs and, optionally, an equals sign and a value
    free of line terminators; the pattern extracts that name and value. *)
Lemma regex_match_long_iff (tok name : string) (value : option string) :
  regex_match_long tok = Some (name, value) <->
  tok = "--" ++ name ++ value_suffix value /\
  no_equals name = true /\
  (forall v, value = Some v -> dot_star v = true).
Proof.
  split.
  - rewrite regex_match_long_shape. unfold long_shape.
    destruct tok as [|a [|b r]]; try discriminate.
    destruct (Ascii.eqb_spec a "-"%char) as [->|_]; [|discriminate].
    destruct (Ascii.eqb_spec b "-"%char) as [->|_]; [|discriminate].
    cbn [andb].
    destruct (not_equals_star r) as [n after] eqn:E.
    apply not_equals_star_inv in E. destruct E as [Hr [Hn Ha]].
    destruct after as [|e v].
    + intros H. inversion H; subst. simpl. repeat split; auto. discriminate.
    + destruct (dot_star v) eqn:Hd; [|discriminate].
      intros H. inversion H; subst.
      destruct Ha as [Ha|[v' Ha]]; [discriminate|].
      simpl in Ha. inversion Ha; subst. simpl.
      repeat split; auto. intros v0 Hv0. inversion Hv0; subst. exact Hd.
  - intros [-> [Hn Hv]]. rewrite regex_match_long_shape. simpl.
    rewrite (not_equals_star_name _ value Hn).
    destruct value as [v|]; simpl; [|reflexivity].
    rewrite (Hv v eq_refl). reflexivity.
Qed.

(** The tokens the short-option pattern accepts are exactly a hyphen and
    one or more characters, none of them a line terminator. *)
Lemma regex_match_short_iff (tok chars : string) :
  regex_match_short tok = Some chars <->
  tok = "-" ++ chars /\ chars <> "" /\ dot_star chars = true.
Proof.
  split.
  - rewrite regex_match_short_shape. unfold short_shape.
    destruct tok as [|a [|c cs]]; try discriminate.
    destruct (Ascii.eqb_spec a "-"%char) as [->|_]; [|discriminate].
    destruct (dot_star (String c cs)) eqn:Hd; [|discriminate].
    intros H. inversion H; subst. repeat split; [discriminate|exact Hd].
  - intros [-> [Hne Hd]]. destruct chars as [|c cs]; [congruence|].
    rewrite regex_match_short_shape. unfold short_shape. cbn [append].
    rewrite Hd. reflexivity.
Qed.

Lemma regex_match_long_not_separator (name : string) (v : string) :
  regex_match_long "--" <> Some (name, Some v).
Proof. simpl. discriminate. Qed.

(** ** Resolution of a long name *)

Lemma find_if_filter_nil (A : Type) (pred : A -> bool) (l : list A) :
  find_if pred l = [] <-> filter pred l = [].
Proof.
  induction l as [|x l IH]; simpl; [tauto|].
  destruct (pred x); [split; discriminate|exact IH].
Qed.

Lemma find_if_filter_cons (A : Type) (pred : A -> bool) (l : list A)
    (x : A) (next : list A) :
  find_if pred l = x :: next -> filter pred l = x :: filter pred next.
Proof.
  induction l as [|y l IH]; simpl; [discriminate|].
  destruct (pred y) eqn:E.
  - intros H. inversion H; subst. reflexivity.
  - exact IH.
Qed.

Lemma find_if_suffix (A : Type) (pred : A -> bool) (l : list A)
    (x : A) (next : list A) :
  find_if pred l = x :: next ->
  exists before, l = (before ++ x :: next)%list.
Proof.
  induction l as [|y l IH]; simpl; [discriminate|].
  destruct (pred y).
  - intros H. inversion H; subst. exists []. reflexivity.
  - intros H. destruct (IH H) as [before ->]. exists (y :: before). reflexivity.
Qed.

Lemma filter_nil_suffix (A : Type) (pred : A -> bool)
    (before next : list A) (x : A) :
  filter pred (before ++ x :: next)%list = [] -> filter pred next = [].
Proof.
  rewrite filter_app. intros H. apply app_eq_nil in H. destruct H as [_ H].
  simpl in H. destruct (pred x); [discriminate|exact H].
Qed.

(** The long-option branch of [run] refines the resolution of the
    specification: what it does is decided by [resolve_long]. *)
Lemma run_long_resolve (St : Type) (p : basic_parser St) (arg name : string)
    (value : option string) (rest : list string) (s : St) :
  run_long p arg name value rest s =
  match resolve_long (m_options p) name with
  | Unrecognized => (m_unrec_option_handler p arg ;;; ret (Next false)) s
  | Ambiguous => throw ("ambiguous option: --" ++ name) s
  | Selected opt => dispatch_long opt name value rest s
  end.
Proof.
  unfold run_long, resolve_long, matching, find_match_long.
  set (ex := fun opt : basic_option St =>
               match_type_eqb (match_long opt name) match_exact).
  set (pa := fun opt : basic_option St =>
               match_type_eqb (match_long opt name) match_partial).
  destruct (find_if ex (m_options p)) as [|opt next] eqn:Eex.
  - assert (Fex : filter ex (m_options p) = [])
      by (apply find_if_filter_nil; exact Eex).
    rewrite Fex.
    destruct (find_if pa (m_options p)) as [|opt next] eqn:Epa.
    + apply find_if_filter_nil in Epa. rewrite Epa. reflexivity.
    + destruct (find_if_suffix _ _ _ _ _ Epa) as [before Hsplit].
      rewrite (find_if_filter_cons _ _ _ _ _ Epa).
      destruct (find_if pa next) as [|opt' next'] eqn:Epa'.
      * apply find_if_filter_nil in Epa'. rewrite Epa'.
        rewrite Hsplit in Fex. apply filter_nil_suffix in Fex.
        apply find_if_filter_nil in Fex. rewrite Fex. reflexivity.
      * rewrite (find_if_filter_cons _ _ _ _ _ Epa'). reflexivity.
  - rewrite (find_if_filter_cons _ _ _ _ _ Eex).
    destruct (find_if ex next) as [|opt' next'] eqn:Eex'.
    + apply find_if_filter_nil in Eex'. rewrite Eex'. reflexivity.
    + rewrite (find_if_filter_cons _ _ _ _ _ Eex'). reflexivity.
Qed.

Lemma execute_arg_handler (St : Type) (opt : basic_option St) (v : string)
    (s : St) :
  get_arg_type opt <> arg_none ->
  execute_arg opt v s = m_handler opt (Some v) s.
Proof.
  unfold execute_arg, get_arg_type. intros H.
  destruct (m_arg_type opt); [contradiction| |]; reflexivity.
Qed.

Lemma execute_handler (St : Type) (opt : basic_option St) (s : St) :
  get_arg_type opt <> arg_required ->
  execute opt s = m_handler opt None s.
Proof.
  unfold execute, get_arg_type. intros H.
  destruct (m_arg_type opt); [| |contradiction]; reflexivity.
Qed.

Lemma bind_ext_l (St A B : Type) (m m' : M St A) (k : A -> M St B) (s : St) :
  m s = m' s -> bind m k s = bind m' k s.
Proof. unfold bind. intros ->. reflexivity. Qed.

(** The option declared at position [i]. *)
Lemma options_from_nth (ds : list Log.decl) (base : nat)
    (opt : basic_option Log.trace) :
  In opt (Log.options_from base ds) ->
  exists i d, nth_error ds i = Some d /\ opt = Log.option_of (base + i) d.
Proof.
  revert base; induction ds as [|d ds IH]; intros base; simpl; [tauto|].
  intros [<-|H].
  - exists 0, d. rewrite Nat.add_0_r. auto.
  - destruct (IH _ H) as [i [d' [Hi ->]]]. exists (S i), d'.
    rewrite Nat.add_succ_r. auto.
Qed.

Lemma option_of_arg_type (i : nat) (d : Log.decl) :
  get_arg_type (Log.option_of i d) = Log.arity d.
Proof. unfold Log.option_of. destruct (Log.arity d); reflexivity. Qed.

Lemma option_of_long_names (i : nat) (d : Log.decl) :
  m_long_names (Log.option_of i d) = Log.long_names d.
Proof. unfold Log.option_of. destruct (Log.arity d); reflexivity. Qed.

Lemma option_of_short_names (i : nat) (d : Log.decl) :
  m_short_names (Log.option_of i d) = Log.short_names d.
Proof. unfold Log.option_of. destruct (Log.arity d); reflexivity. Qed.

Lemma option_of_handler_some (i : nat) (d : Log.decl) (v : string)
    (t : Log.trace) :
  Log.arity d <> arg_none ->
  m_handler (Log.option_of i d) (Some v) t
  = ((t ++ [Log.OptionHandler i (Some v)])%list, Returned tt).
Proof.
  unfold Log.option_of. destruct (Log.arity d); [contradiction| |];
    reflexivity.
Qed.

Lemma option_of_handler_none (i : nat) (d : Log.decl) (t : Log.trace) :
  Log.arity d <> arg_required ->
  m_handler (Log.option_of i d) None t
  = ((t ++ [Log.OptionHandler i None])%list, Returned tt).
Proof.
  unfold Log.option_of. destruct (Log.arity d); [| |contradiction];
    reflexivity.
Qed.

Lemma resolve_long_selected_in (St : Type) (options : list (basic_option St))
    (name : string) (opt : basic_option St) :
  resolve_long options name = Selected opt -> In opt options.
Proof.
  unfold resolve_long, matching. intros H.
  destruct (filter _ options) as [|o [|o' l]] eqn:E; try discriminate.
  - destruct (filter (fun opt0 => match_type_eqb (match_long opt0 name)
                                   match_partial) options)
      as [|o [|o' l]] eqn:E'; try discriminate.
    inversion H; subst.
    assert (Hin : In opt [opt]) by (left; reflexivity).
    rewrite <- E' in Hin. apply filter_In in Hin. tauto.
  - inversion H; subst.
    assert (Hin : In opt [opt]) by (left; reflexivity).
    rewrite <- E in Hin. apply filter_In in Hin. tauto.
Qed.

(** ** Values attached with an equals sign *)

(** At a token that the long-option pattern reads as [--name=value],
    with [name] resolving to one option whose argument type is optional or
    required, [run] calls that option's stored handler once, on [value]
    (the empty string included), and goes on with the next token; with
    recording handlers the one call recorded for the token is that of the
    selected option with [value]. *)
Theorem run_long_attached_value :
  (forall (St : Type) (p : basic_parser St) (tok name value : string)
          (opt : basic_option St) (rest : list string) (s : St),
      regex_match_long tok = Some (name, Some value) ->
      resolve_long (m_options p) name = Selected opt ->
      get_arg_type opt <> arg_none ->
      run p (tok :: rest) s
      = (m_handler opt (Some value) ;;; run p rest) s) /\
  (forall (ds : list Log.decl) (default_unrec : bool) (flag : parse_flag)
          (tok name value : string) (opt : basic_option Log.trace)
          (rest : list string) (t : Log.trace),
      regex_match_long tok = Some (name, Some value) ->
      resolve_long (Log.options_from 0 ds) name = Selected opt ->
      get_arg_type opt <> arg_none ->
      exists i d,
        nth_error ds i = Some d /\ opt = Log.option_of i d /\
        run (Log.parser_of ds default_unrec flag) (tok :: rest) t
        = run (Log.parser_of ds default_unrec flag) rest
              (t ++ [Log.OptionHandler i (Some value)])%list).
Proof.
  assert (G : forall (St : Type) (p : basic_parser St) (tok name value : string)
                     (opt : basic_option St) (rest : list string) (s : St),
             regex_match_long tok = Some (name, Some value) ->
             resolve_long (m_options p) name = Selected opt ->
             get_arg_type opt <> arg_none ->
             run p (tok :: rest) s
             = (m_handler opt (Some value) ;;; run p rest) s).
  { intros St p tok name value opt rest s Htok Hsel Harg.
    rewrite run_cons. unfold run_body.
    destruct (String.eqb_spec tok "--") as [->|_];
      [exfalso; exact (regex_match_long_not_separator _ _ Htok)|].
    rewrite Htok.
    transitivity
      (bind (dispatch_long opt name (Some value) rest)
            (fun c => match c with
                      | Break => ret tt
                      | Next advanced => run p (advance advanced rest)
                      end) s).
    { apply bind_ext_l. rewrite run_long_resolve, Hsel. reflexivity. }
    unfold dispatch_long.
    destruct (get_arg_type opt) eqn:E; [contradiction| |];
      rewrite bind_assoc;
      (transitivity (bind (m_handler opt (Some value))
                          (fun _ => run p (advance false rest)) s);
       [unfold bind at 1 3; rewrite execute_arg_handler by congruence;
        reflexivity
       |apply bind_ext; intros _ s'; destruct rest; reflexivity]). }
  split; [exact G|].
  intros ds du flag tok name value opt rest t Htok Hsel Harg.
  destruct (options_from_nth ds 0 opt (resolve_long_selected_in _ _ _ _ Hsel))
    as [i [d [Hi Hopt]]].
  exists i, d. split; [exact Hi|]. split; [exact Hopt|].
  rewrite (G _ _ tok name value opt)
    by (try rewrite parser_of_options; assumption).
  subst opt. rewrite option_of_arg_type in Harg.
  unfold bind. rewrite option_of_handler_some by exact Harg. reflexivity.
Qed.

Lemma run_long_attached_value_example :
  run (Log.parser_of [help_decl; output_decl] true flag_none)
      ["--output="; "x"] []
  = ([Log.OptionHandler 1 (Some ""); Log.NonOptionHandler "x"], Returned tt).
Proof.
  rewrite (proj1 run_long_attached_value _
             (Log.parser_of [help_decl; output_decl] true flag_none)
             "--output=" "output" "" (Log.option_of 1 output_decl) ["x"] []).
  - reflexivity.
  - reflexivity.
  - reflexivity.
  - discriminate.
Defined.

(** ** Short-option clusters *)

(** One step of the cluster loop, decided by [resolve_short]. *)
Lemma run_short_resolve (St : Type) (p : basic_parser St) (name : ascii)
    (after : string) (rest : list string) (s : St) :
  run_short p (String name after) rest s =
  match resolve_short (m_options p) name with
  | Unrecognized =>
      (m_unrec_option_handler p ("-" ++ String name after) ;;;
       run_short p after rest) s
  | Ambiguous => throw ("ambiguous option: -" ++ String name EmptyString) s
  | Selected opt => dispatch_short p opt name after rest s
  end.
Proof.
  unfold resolve_short, matching_short, dispatch_short.
  cbn [run_short]. unfold find_match_short.
  set (ex := fun opt : basic_option St =>
               match_type_eqb (match_short opt name) match_exact).
  destruct (find_if ex (m_options p)) as [|opt next] eqn:Eex.
  - apply find_if_filter_nil in Eex. rewrite Eex. reflexivity.
  - rewrite (find_if_filter_cons _ _ _ _ _ Eex).
    destruct (find_if ex next) as [|opt' next'] eqn:Eex'.
    + apply find_if_filter_nil in Eex'. rewrite Eex'. reflexivity.
    + rewrite (find_if_filter_cons _ _ _ _ _ Eex'). reflexivity.
Qed.

Lemma dot_star_app (s t : string) :
  dot_star (s ++ t) = dot_star s && dot_star t.
Proof.
  induction s as [|c s IH]; simpl; [reflexivity|].
  rewrite IH, andb_assoc. reflexivity.
Qed.

Lemma run_short_token (St : Type) (p : basic_parser St) (c : ascii)
    (chars : string) (rest : list string) (s : St) :
  c <> "-"%char ->
  dot_star (String c chars) = true ->
  run p (String "-" (String c chars) :: rest) s
  = bind (run_short p (String c chars) rest)
         (fun c => match c with
                   | Break => ret tt
                   | Next advanced => run p (advance advanced rest)
                   end) s.
Proof.
  intros Hc Hdot. rewrite run_cons. apply bind_ext_l. unfold run_body.
  assert (E : String.eqb (String "-" (String c chars)) "--" = false).
  { simpl. apply Ascii.eqb_neq in Hc. rewrite Hc. reflexivity. }
  rewrite E.
  assert (L : regex_match_long (String "-" (String c chars)) = None).
  { destruct (regex_match_long _) as [[n v]|] eqn:El; [|reflexivity].
    apply regex_match_long_iff in El. destruct El as [El _].
    simpl in El. inversion El. congruence. }
  rewrite L, regex_match_short_shape. unfold short_shape.
  rewrite Hdot. reflexivity.
Qed.

Lemma bind_ret_l (St A B : Type) (a : A) (k : A -> M St B) (s : St) :
  bind (ret a) k s = k a s.
Proof. reflexivity. Qed.

Lemma bind_assert_true (St B : Type) (k : unit -> M St B) (s : St) :
  bind (assert true) k s = k tt s.
Proof. reflexivity. Qed.

(** A selected option without an argument: its handler runs and the loop
    goes on with the next character. *)
Lemma run_short_none (St : Type) (p : basic_parser St) (name : ascii)
    (after : string) (rest : list string) (opt : basic_option St) (s : St) :
  resolve_short (m_options p) name = Selected opt ->
  get_arg_type opt = arg_none ->
  run_short p (String name after) rest s
  = (m_handler opt None ;;; run_short p after rest) s.
Proof.
  intros Hsel Harg. rewrite run_short_resolve, Hsel.
  unfold dispatch_short. rewrite Harg. apply bind_ext_l.
  apply execute_handler. congruence.
Qed.

(** A selected option with a required argument and characters left in the
    cluster: they are the value. *)
Lemma run_short_required_attached (St : Type) (p : basic_parser St)
    (name : ascii) (after : string) (rest : list string)
    (opt : basic_option St) (s : St) :
  resolve_short (m_options p) name = Selected opt ->
  get_arg_type opt = arg_required ->
  after <> "" ->
  run_short p (String name after) rest s
  = (m_handler opt (Some after) ;;; ret (Next false)) s.
Proof.
  intros Hsel Harg Hne. rewrite run_short_resolve, Hsel.
  unfold dispatch_short. rewrite Harg.
  destruct after as [|c after]; [congruence|]. cbn [is_end].
  apply bind_ext_l. apply execute_arg_handler. congruence.
Qed.

(** A selected option with a required argument at the end of the cluster:
    the next token is the value. *)
Lemma run_short_required_next (St : Type) (p : basic_parser St)
    (name : ascii) (next_arg : string) (rest : list string)
    (opt : basic_option St) (s : St) :
  resolve_short (m_options p) name = Selected opt ->
  get_arg_type opt = arg_required ->
  run_short p (String name "") (next_arg :: rest) s
  = (m_handler opt (Some next_arg) ;;; ret (Next true)) s.
Proof.
  intros Hsel Harg. rewrite run_short_resolve, Hsel.
  unfold dispatch_short. rewrite Harg. cbn [is_end].
  apply bind_ext_l. apply execute_arg_handler. congruence.
Qed.

(** A selected option with a required argument at the end of the cluster
    and of the input. *)
Lemma run_short_required_missing (St : Type) (p : basic_parser St)
    (name : ascii) (opt : basic_option St) (s : St) :
  resolve_short (m_options p) name = Selected opt ->
  get_arg_type opt = arg_required ->
  run_short p (String name "") [] s
  = throw ("argument required: -" ++ String name "") s.
Proof.
  intros Hsel Harg. rewrite run_short_resolve, Hsel.
  unfold dispatch_short. rewrite Harg. reflexivity.
Qed.

(** C7: with one option declaring the short name [a], built without an
    argument around the handler [ha], and one declaring [b], built with a
    required argument around [hb], the token [-ab] followed in the same
    token by a value calls [ha] and then [hb] on that value, and the token
    [-ab] followed by another token calls [ha] and then [hb] on that next
    token; in both cases [run] goes on after the tokens it used. *)
Theorem run_short_cluster_value (St : Type) (p : basic_parser St)
    (sa : list ascii) (la : list string) (ha : M St unit) (da : string)
    (sb : list ascii) (lb : list string) (hb : string -> M St unit)
    (nb db : string) (value value2 : string) (rest : list string) (s : St) :
  resolve_short (m_options p) "a" = Selected (option_no_arg sa la ha da) ->
  resolve_short (m_options p) "b"
    = Selected (option_required_arg sb lb hb nb db) ->
  value <> "" ->
  dot_star value = true ->
  run p (("-ab" ++ value) :: rest) s
  = (ha ;;; hb value ;;; run p rest) s /\
  run p ("-ab" :: value2 :: rest) s
  = (ha ;;; hb value2 ;;; run p rest) s.
Proof.
  intros Ha Hb Hne Hdot. split.
  - change ("-ab" ++ value) with (String "-" (String "a" (String "b" value))).
    rewrite run_short_token; [|discriminate|exact Hdot].
    rewrite (bind_ext_l _ _ _ _
               (ha ;;; hb value ;;; ret (Next false))).
    + rewrite bind_assoc. apply bind_ext. intros _ s1.
      rewrite bind_assoc. apply bind_ext. intros _ s2.
      destruct rest; reflexivity.
    + rewrite (run_short_none _ _ _ _ _ _ _ Ha eq_refl).
      apply bind_ext. intros _ s1.
      rewrite (run_short_required_attached _ _ _ _ _ _ _ Hb eq_refl Hne).
      reflexivity.
  - change "-ab" with (String "-" (String "a" (String "b" ""))).
    rewrite run_short_token; [|discriminate|reflexivity].
    rewrite (bind_ext_l _ _ _ _
               (ha ;;; hb value2 ;;; ret (Next true))).
    + rewrite bind_assoc. apply bind_ext. intros _ s1.
      rewrite bind_assoc. apply bind_ext. intros _ s2. reflexivity.
    + rewrite (run_short_none _ _ _ _ _ _ _ Ha eq_refl).
      apply bind_ext. intros _ s1.
      rewrite (run_short_required_next _ _ _ _ _ _ _ Hb eq_refl).
      reflexivity.
Qed.

Lemma run_short_cluster_value_example :
  run (Log.parser_of [a_decl; b_decl] true flag_none) ["-abVALUE"] []
  = ([Log.OptionHandler 0 None; Log.OptionHandler 1 (Some "VALUE")],
     Returned tt) /\
  run (Log.parser_of [a_decl; b_decl] true flag_none) ["-ab"; "VALUE2"] []
  = ([Log.OptionHandler 0 None; Log.OptionHandler 1 (Some "VALUE2")],
     Returned tt).
Proof.
  exact (run_short_cluster_value Log.trace
           (Log.parser_of [a_decl; b_decl] true flag_none)
           ["a"%char] [] (Log.log (Log.OptionHandler 0 None)) ""
           ["b"%char] [] (fun v => Log.log (Log.OptionHandler 1 (Some v)))
           "ARG" "" "VALUE" "VALUE2" [] []
           eq_refl eq_refl ltac:(discriminate) eq_refl).
Defined.

(** One step of the loop over a cluster, at a character that no option
    declares: the unrecognized-option handler is called on a hyphen
    followed by the characters of the cluster from that one to the end of
    the token; if it returns, the loop goes on at the next character of the
    same token. *)
Theorem run_short_unrecognized_goes_on (St : Type) (p : basic_parser St)
    (name : ascii) (after : string) (rest : list string) (s : St) :
  matching_short (m_options p) name = [] ->
  run_short p (String name after) rest s
  = (m_unrec_option_handler p ("-" ++ String name after) ;;;
     run_short p after rest) s.
Proof.
  intros Hnone. rewrite run_short_resolve. unfold resolve_short.
  rewrite Hnone. reflexivity.
Qed.

Lemma run_short_unrecognized_goes_on_example :
  run_short (Log.parser_of [a_decl] false flag_none) "xa" ["next"] []
  = ([Log.UnrecOptionHandler "-xa"; Log.OptionHandler 0 None],
     Returned (Next false)).
Proof.
  rewrite (run_short_unrecognized_goes_on Log.trace
             (Log.parser_of [a_decl] false flag_none) "x" "a" ["next"] []).
  - reflexivity.
  - reflexivity.
Defined.

(** C2 (the code at the failing input): with a handler for unrecognized
    options that returns, the cluster [-xa], where only [a] is declared,
    reports [-xa], the whole rest of the cluster, and then still runs
    [a]'s handler from the same token before the scan moves to the next
    token: the [continue] of line 354 resumes the loop over the
    characters, not the loop over the tokens. *)
Lemma run_short_goes_on_after_unrecognized :
  run (Log.parser_of [a_decl] false flag_none) ["-xa"; "next"] []
  = ([Log.UnrecOptionHandler "-xa"; Log.OptionHandler 0 None;
      Log.NonOptionHandler "next"], Returned tt).
Proof. reflexivity. Qed.

(** ** Failures of [run] *)

Lemma run_thrown_bounded (St : Type) (p : basic_parser St) (n : nat) :
  forall (args : list string) (s s' : St) (e : basic_parse_error),
    List.length args <= n ->
    run p args s = (s', Thrown e) ->
    exists tok rest s1,
      reaches p args s (tok :: rest) s1 /\
      run_body p tok rest s1 = (s', Thrown e).
Proof.
  induction n as [|n IH]; intros args s s' e Hlen Hrun.
  - destruct args; [discriminate Hrun|simpl in Hlen; lia].
  - destruct args as [|arg rest]; [discriminate Hrun|].
    rewrite run_cons in Hrun. unfold bind in Hrun.
    destruct (run_body p arg rest s) as [s1 [[adv|]|e'|]] eqn:Hbody.
    + assert (Hlen' : List.length (advance adv rest) <= n).
      { simpl in Hlen. destruct rest as [|x rest']; simpl in *; [lia|].
        destruct adv; simpl; lia. }
      destruct (IH _ _ _ _ Hlen' Hrun) as [tok [rest' [s2 [Hreach Hthrow]]]].
      exists tok, rest', s2. split; [|exact Hthrow].
      eapply reaches_pass; eassumption.
    + discriminate Hrun.
    + inversion Hrun; subst. exists arg, rest, s.
      split; [apply reaches_here|exact Hbody].
    + discriminate Hrun.
Qed.

(** [run] throws exactly when the pass at some token its loop reaches
    throws; the error and the final state are those of that pass. *)
Lemma run_thrown (St : Type) (p : basic_parser St) (args : list string)
    (s s' : St) (e : basic_parse_error) :
  run p args s = (s', Thrown e) <->
  exists tok rest s1,
    reaches p args s (tok :: rest) s1 /\
    run_body p tok rest s1 = (s', Thrown e).
Proof.
  split.
  - apply (run_thrown_bounded St p (List.length args)). lia.
  - intros [tok [rest [s1 [Hreach Hbody]]]].
    rewrite (run_reaches _ _ _ _ _ _ Hreach), run_cons.
    unfold bind. rewrite Hbody. reflexivity.
Qed.

(** *** What recording handlers do *)

Lemma unrec_log (ds : list Log.decl) (du : bool) (flag : parse_flag)
    (a : string) (t : Log.trace) :
  m_unrec_option_handler (Log.parser_of ds du flag) a t
  = if du then (t, Thrown (error ("unrecognized option: " ++ a)))
    else ((t ++ [Log.UnrecOptionHandler a])%list, Returned tt).
Proof. destruct du; reflexivity. Qed.

Lemma dispatch_long_log (i : nat) (d : Log.decl) (name : string)
    (value : option string) (rest : list string) (t : Log.trace) :
  dispatch_long (Log.option_of i d) name value rest t =
  match Log.arity d, value, rest with
  | arg_none, Some _, _ =>
      (t, Thrown (error ("argument not allowed: --" ++ name)))
  | arg_none, None, _ =>
      ((t ++ [Log.OptionHandler i None])%list, Returned (Next false))
  | arg_optional, _, _ =>
      ((t ++ [Log.OptionHandler i value])%list, Returned (Next false))
  | arg_required, Some v, _ =>
      ((t ++ [Log.OptionHandler i (Some v)])%list, Returned (Next false))
  | arg_required, None, [] =>
      (t, Thrown (error ("argument required: --" ++ name)))
  | arg_required, None, next :: _ =>
      ((t ++ [Log.OptionHandler i (Some next)])%list, Returned (Next true))
  end.
Proof.
  unfold dispatch_long, Log.option_of.
  destruct (Log.arity d); destruct value as [v|];
    try destruct rest as [|next rest]; reflexivity.
Qed.

(** The pass at a long-option token, for a recording parser. *)
Lemma run_body_long (St : Type) (p : basic_parser St) (tok name : string)
    (value : option string) (rest : list string) (s : St) :
  tok <> "--" ->
  regex_match_long tok = Some (name, value) ->
  run_body p tok rest s = run_long p tok name value rest s.
Proof.
  intros Hsep Htok. unfold run_body.
  destruct (String.eqb_spec tok "--"); [contradiction|].
  rewrite Htok. reflexivity.
Qed.

(** ** Ambiguity of long names *)

Lemma resolve_long_ambiguous (St : Type) (options : list (basic_option St))
    (name : string) :
  resolve_long options name = Ambiguous <-> ambiguous_long options name.
Proof.
  unfold resolve_long, ambiguous_long.
  destruct (matching options name match_exact) as [|o [|o' l]];
    destruct (matching options name match_partial) as [|q [|q' l']];
    simpl; split; intros H; try discriminate H; try reflexivity;
    try (right; split; [reflexivity|lia]); try (left; lia);
    destruct H as [H|[H1 H2]]; try discriminate; lia.
Qed.

Lemma run_long_log_not_ambiguous (ds : list Log.decl) (du : bool)
    (flag : parse_flag) (tok name : string) (value : option string)
    (rest : list string) (t : Log.trace) :
  resolve_long (Log.options_from 0 ds) name <> Ambiguous ->
  ~ raises "ambiguous option: "
      (run_long (Log.parser_of ds du flag) tok name value rest t).
Proof.
  intros Hres [msg [Hthrown Hprefix]].
  rewrite run_long_resolve, parser_of_options in Hthrown.
  destruct (resolve_long (Log.options_from 0 ds) name) as [| |opt] eqn:R.
  - unfold bind in Hthrown. rewrite unrec_log in Hthrown.
    destruct du; simpl in Hthrown; [|discriminate].
    inversion Hthrown; subst. discriminate Hprefix.
  - congruence.
  - destruct (options_from_nth ds 0 opt (resolve_long_selected_in _ _ _ _ R))
      as [i [d [_ ->]]].
    rewrite dispatch_long_log in Hthrown.
    destruct (Log.arity d); destruct value as [v|];
      try destruct rest as [|next rest]; simpl in Hthrown;
      try discriminate; inversion Hthrown; subst; discriminate Hprefix.
Qed.

(** C1: at a long-option token, one exact-matching option is selected
    whatever number of options partial-match; when two or more options
    exact-match the extracted name, or none does and two or more
    partial-match it, the pass throws the ambiguity error at once, the
    host state untouched, whatever the handlers are; and, with recording
    handlers, the pass raises the ambiguity error in exactly that case,
    and it then has called no handler. *)
Theorem long_option_ambiguity :
  (forall (St : Type) (p : basic_parser St) (tok name : string)
          (value : option string) (rest : list string) (s : St)
          (opt : basic_option St),
      tok <> "--" ->
      regex_match_long tok = Some (name, value) ->
      matching (m_options p) name match_exact = [opt] ->
      run_body p tok rest s = dispatch_long opt name value rest s) /\
  (forall (St : Type) (p : basic_parser St) (tok name : string)
          (value : option string) (rest : list string) (s : St),
      tok <> "--" ->
      regex_match_long tok = Some (name, value) ->
      ambiguous_long (m_options p) name ->
      run_body p tok rest s
      = (s, Thrown (error ("ambiguous option: --" ++ name)))) /\
  (forall (ds : list Log.decl) (default_unrec : bool) (flag : parse_flag)
          (tok name : string) (value : option string) (rest : list string)
          (t : Log.trace),
      tok <> "--" ->
      regex_match_long tok = Some (name, value) ->
      (raises "ambiguous option: "
         (run_body (Log.parser_of ds default_unrec flag) tok rest t)
       <-> ambiguous_long (Log.options_from 0 ds) name) /\
      (raises "ambiguous option: "
         (run_body (Log.parser_of ds default_unrec flag) tok rest t)
       -> run_body (Log.parser_of ds default_unrec flag) tok rest t
          = (t, Thrown (error ("ambiguous option: --" ++ name))))).
Proof.
  assert (Hamb : forall (St : Type) (p : basic_parser St) (tok name : string)
                        (value : option string) (rest : list string) (s : St),
             ambiguous_long (m_options p) name ->
             run_long p tok name value rest s
             = (s, Thrown (error ("ambiguous option: --" ++ name)))).
  { intros St p tok name value rest s H. apply resolve_long_ambiguous in H.
    rewrite run_long_resolve, H. reflexivity. }
  split; [|split].
  - intros St p tok name value rest s opt Hsep Htok Hex.
    rewrite (run_body_long _ _ _ _ _ _ _ Hsep Htok), run_long_resolve.
    unfold resolve_long. rewrite Hex. reflexivity.
  - intros St p tok name value rest s Hsep Htok H.
    rewrite (run_body_long _ _ _ _ _ _ _ Hsep Htok). apply Hamb. exact H.
  - intros ds du flag tok name value rest t Hsep Htok.
    rewrite (run_body_long _ _ _ _ _ _ _ Hsep Htok).
    assert (Hnot : raises "ambiguous option: "
                     (run_long (Log.parser_of ds du flag) tok name value rest t)
                   -> ambiguous_long (Log.options_from 0 ds) name).
    { intros Hr. apply resolve_long_ambiguous.
      destruct (resolve_long (Log.options_from 0 ds) name) eqn:R;
        try reflexivity; exfalso;
        apply (run_long_log_not_ambiguous ds du flag tok name value rest t);
        try exact Hr; rewrite R; discriminate. }
    split; [split|].
    + exact Hnot.
    + intros H. rewrite Hamb by (rewrite parser_of_options; exact H).
      exists ("ambiguous option: --" ++ name). split; reflexivity.
    + intros Hr. apply Hamb. rewrite parser_of_options. exact (Hnot Hr).
Qed.

Lemma long_option_ambiguity_example :
  run_body (Log.parser_of [long_decl "output"; long_decl "out";
                           long_decl "outline"] true flag_none)
           "--out" [] []
  = ([Log.OptionHandler 1 None], Returned (Next false)) /\
  run_body (Log.parser_of [long_decl "output"; long_decl "out";
                           long_decl "outline"] true flag_none)
           "--ou" [] []
  = ([], Thrown (error "ambiguous option: --ou")) /\
  raises "ambiguous option: "
    (run_body (Log.parser_of [long_decl "output"; long_decl "out";
                              long_decl "outline"] true flag_none)
              "--ou" [] []).
Proof.
  split; [|split].
  - rewrite (proj1 long_option_ambiguity _ _ "--out" "out" None [] []
               (Log.option_of 1 (long_decl "out"))).
    + reflexivity.
    + discriminate.
    + reflexivity.
    + reflexivity.
  - apply (proj1 (proj2 long_option_ambiguity) Log.trace
             (Log.parser_of [long_decl "output"; long_decl "out";
                             long_decl "outline"] true flag_none)
             "--ou" "ou" None [] []).
    + discriminate.
    + reflexivity.
    + right. simpl. split; [reflexivity|lia].
  - apply (proj2 (proj2 long_option_ambiguity)
             [long_decl "output"; long_decl "out"; long_decl "outline"]
             true flag_none "--ou" "ou" None [] []).
    + discriminate.
    + reflexivity.
    + right. simpl. split; [reflexivity|lia].
Defined.

(** ** Argument errors *)

Lemma raises_thrown (St A : Type) (kind msg : string) (s : St) :
  raises kind (s, @Thrown A (error msg)) <-> String.prefix kind msg = true.
Proof.
  unfold raises. simpl. split.
  - intros [m [H Hp]]. inversion H; subst. exact Hp.
  - intros H. exists msg. auto.
Qed.

Lemma raises_returned (St A : Type) (kind : string) (s : St) (a : A) :
  ~ raises kind (s, Returned a).
Proof. intros [m [H _]]. discriminate H. Qed.

(** [run] raises an error of some kind exactly when the pass at a token
    its loop reaches raises it. *)
Lemma raises_run (St : Type) (p : basic_parser St) (kind : string)
    (args : list string) (s : St) :
  raises kind (run p args s) <->
  exists tok rest s1,
    reaches p args s (tok :: rest) s1 /\
    raises kind (run_body p tok rest s1).
Proof.
  split.
  - intros [msg [Hthrown Hprefix]].
    destruct (run p args s) as [s' o] eqn:Hrun. simpl in Hthrown. subst o.
    apply run_thrown in Hrun. destruct Hrun as [tok [rest [s1 [Hr Hb]]]].
    exists tok, rest, s1. split; [exact Hr|].
    exists msg. rewrite Hb. auto.
  - intros [tok [rest [s1 [Hr [msg [Hthrown Hprefix]]]]]].
    destruct (run_body p tok rest s1) as [s' o] eqn:Hb.
    simpl in Hthrown. subst o.
    assert (Hrun : run p args s = (s', Thrown (error msg)))
      by (apply run_thrown; exists tok, rest, s1; auto).
    exists msg. rewrite Hrun. auto.
Qed.

Lemma dispatch_short_log (ds : list Log.decl) (du : bool) (flag : parse_flag)
    (i : nat) (d : Log.decl) (name : ascii) (after : string)
    (rest : list string) (t : Log.trace) :
  dispatch_short (Log.parser_of ds du flag) (Log.option_of i d) name after
    rest t =
  match Log.arity d with
  | arg_none =>
      run_short (Log.parser_of ds du flag) after rest
        (t ++ [Log.OptionHandler i None])%list
  | arg_optional =>
      ((t ++ [Log.OptionHandler i
                (if is_end after then None else Some after)])%list,
       Returned (Next false))
  | arg_required =>
      if is_end after then
        match rest with
        | [] =>
            (t, Thrown (error ("argument required: -"
                               ++ String name EmptyString)))
        | next :: _ =>
            ((t ++ [Log.OptionHandler i (Some next)])%list,
             Returned (Next true))
        end
      else ((t ++ [Log.OptionHandler i (Some after)])%list,
            Returned (Next false))
  end.
Proof.
  unfold dispatch_short, Log.option_of.
  destruct (Log.arity d); destruct after as [|c after];
    try destruct rest as [|next rest]; reflexivity.
Qed.

Lemma resolve_short_selected_in (St : Type) (options : list (basic_option St))
    (c : ascii) (opt : basic_option St) :
  resolve_short options c = Selected opt -> In opt options.
Proof.
  unfold resolve_short, matching_short. intros H.
  destruct (filter _ options) as [|o [|o' l]] eqn:E; try discriminate.
  inversion H; subst.
  assert (Hin : In opt [opt]) by (left; reflexivity).
  rewrite <- E in Hin. apply filter_In in Hin. tauto.
Qed.

(** A cluster never raises the error for a value that is not allowed. *)
Lemma run_short_log_not_allowed (ds : list Log.decl) (du : bool)
    (flag : parse_flag) (chars : string) (rest : list string) :
  forall t : Log.trace,
    ~ raises "argument not allowed: "
        (run_short (Log.parser_of ds du flag) chars rest t).
Proof.
  induction chars as [|c after IH]; intros t.
  - apply raises_returned.
  - rewrite run_short_resolve, parser_of_options.
    destruct (resolve_short (Log.options_from 0 ds) c) as [| |opt] eqn:R.
    + unfold bind. rewrite unrec_log. destruct du.
      * rewrite raises_thrown. discriminate.
      * apply IH.
    + unfold throw. rewrite raises_thrown. discriminate.
    + destruct (options_from_nth ds 0 opt (resolve_short_selected_in _ _ _ _ R))
        as [i [d [_ ->]]].
      rewrite dispatch_short_log.
      destruct (Log.arity d); [apply IH|apply raises_returned|].
      destruct (is_end after); [|apply raises_returned].
      destruct rest; [|apply raises_returned].
      rewrite raises_thrown. discriminate.
Qed.

Lemma ends_required_nil (ds : list Log.decl) (du : bool) :
  ~ ends_required ds du "".
Proof. intros [[|x pre] [c [opt [H _]]]]; discriminate H. Qed.

Lemma ends_required_cons (ds : list Log.decl) (du : bool) (x : ascii)
    (after : string) :
  ends_required ds du (String x after) <->
  (after = "" /\
   exists opt, resolve_short (Log.options_from 0 ds) x = Selected opt /\
               get_arg_type opt = arg_required) \/
  (goes_on ds du x /\ ends_required ds du after).
Proof.
  split.
  - intros [[|y pre] [c [opt [Heq [Hgo [Hsel Harg]]]]]]; simpl in Heq;
      inversion Heq; subst.
    + left. split; [reflexivity|]. exists opt. auto.
    + right. destruct Hgo as [Hy Hpre]. split; [exact Hy|].
      exists pre, c, opt. auto.
  - intros [[-> [opt [Hsel Harg]]]|[Hx [pre [c [opt [-> [Hgo [Hsel Harg]]]]]]]].
    + exists "", x, opt. simpl. auto.
    + exists (String x pre), c, opt. simpl. auto.
Qed.

(** A cluster raises the error for a missing argument exactly when no token
    follows and the loop arrives at the last character, which selects an
    option with a required argument. *)
Lemma run_short_log_required (ds : list Log.decl) (du : bool)
    (flag : parse_flag) (chars : string) (rest : list string) :
  forall t : Log.trace,
    raises "argument required: "
      (run_short (Log.parser_of ds du flag) chars rest t)
    <-> rest = [] /\ ends_required ds du chars.
Proof.
  induction chars as [|x after IH]; intros t.
  - split; [intros H; destruct (raises_returned _ _ _ _ _ H)|].
    intros [_ H]. destruct (ends_required_nil _ _ H).
  - rewrite run_short_resolve, parser_of_options, ends_required_cons.
    unfold goes_on.
    destruct (resolve_short (Log.options_from 0 ds) x) as [| |opt] eqn:R.
    + unfold bind. rewrite unrec_log. destruct du.
      * rewrite raises_thrown. split; [discriminate|].
        intros [_ [[_ [o [H _]]]|[[[o [H _]]|[_ H]] _]]]; discriminate H.
      * rewrite IH. split.
        -- intros [Hr He]. split; [exact Hr|]. right. auto.
        -- intros [Hr [[_ [o [H _]]]|[_ He]]]; [discriminate H|auto].
    + unfold throw. rewrite raises_thrown. split; [discriminate|].
      intros [_ [[_ [o [H _]]]|[[[o [H _]]|[H _]] _]]]; discriminate H.
    + destruct (options_from_nth ds 0 opt (resolve_short_selected_in _ _ _ _ R))
        as [i [d [_ ->]]].
      rewrite dispatch_short_log.
      destruct (Log.arity d) eqn:A.
      * rewrite IH. split.
        -- intros [Hr He]. split; [exact Hr|]. right. split; [|exact He].
           left. exists (Log.option_of i d).
           rewrite option_of_arg_type. auto.
        -- intros [Hr [[_ [o [H Ho]]]|[_ He]]]; [|auto].
           inversion H; subst o. rewrite option_of_arg_type in Ho. congruence.
      * split; [intros H; destruct (raises_returned _ _ _ _ _ H)|].
        intros [_ [[_ [o [H Ho]]]|[[[o [H Ho]]|[H _]] _]]];
          try discriminate H; inversion H; subst o;
          rewrite option_of_arg_type in Ho; congruence.
      * destruct after as [|y after]; cbn [is_end].
        -- destruct rest as [|next rest].
           ++ rewrite raises_thrown. split; [|reflexivity].
              intros _. split; [reflexivity|]. left. split; [reflexivity|].
              exists (Log.option_of i d). rewrite option_of_arg_type. auto.
           ++ split; [intros H; destruct (raises_returned _ _ _ _ _ H)|].
              intros [H _]. discriminate H.
        -- split; [intros H; destruct (raises_returned _ _ _ _ _ H)|].
           intros [_ [[H _]|[[[o [H Ho]]|[H _]] _]]];
             try discriminate H; inversion H; subst o;
             rewrite option_of_arg_type in Ho; congruence.
Qed.

Ltac break_hyps :=
  repeat match goal with
         | H : exists _, _ |- _ => destruct H
         | H : _ /\ _ |- _ => destruct H
         | H : _ \/ _ |- _ => destruct H
         | H : Some _ = Some _ |- _ => inversion H; clear H; subst
         | H : Selected _ = Selected _ |- _ => inversion H; clear H; subst
         | H1 : ?x = Selected _, H2 : ?x = Selected _ |- _ =>
             rewrite H1 in H2
         | H : get_arg_type (Log.option_of _ _) = _ |- _ =>
             rewrite option_of_arg_type in H
         end.

Ltac no_raise :=
  split;
  [ first [ rewrite raises_thrown; discriminate
          | intros H; destruct (raises_returned _ _ _ _ _ H) ]
  | intros; break_hyps; congruence ].

Lemma run_body_other_log (ds : list Log.decl) (du : bool) (flag : parse_flag)
    (tok : string) (rest : list string) (t : Log.trace) :
  exists (t' : Log.trace) (c : control),
    match m_flag (Log.parser_of ds du flag) with
    | posixly_correct =>
        for_each (m_non_option_handler (Log.parser_of ds du flag))
          (tok :: rest) ;;; ret Break
    | flag_none =>
        m_non_option_handler (Log.parser_of ds du flag) tok ;;;
        ret (Next false)
    end t = (t', Returned c).
Proof.
  rewrite parser_of_flag, parser_of_non_option. destruct flag.
  - eexists; eexists; reflexivity.
  - unfold bind. rewrite for_each_log. eexists; eexists; reflexivity.
Qed.

Lemma run_body_separator_log (ds : list Log.decl) (du : bool)
    (flag : parse_flag) (rest : list string) (t : Log.trace) :
  run_body (Log.parser_of ds du flag) "--" rest t
  = ((t ++ map Log.NonOptionHandler rest)%list, Returned Break).
Proof.
  unfold run_body. rewrite String.eqb_refl.
  rewrite parser_of_non_option. unfold bind. rewrite for_each_log.
  reflexivity.
Qed.

(** The pass at a token raises the error for a value that is not allowed
    exactly when the token is a long option with an attached value and the
    name selects an option without an argument. *)
Lemma run_body_log_not_allowed (ds : list Log.decl) (du : bool)
    (flag : parse_flag) (tok : string) (rest : list string) (t : Log.trace) :
  raises "argument not allowed: "
    (run_body (Log.parser_of ds du flag) tok rest t)
  <-> tok <> "--" /\
      exists name v opt,
        regex_match_long tok = Some (name, Some v) /\
        resolve_long (Log.options_from 0 ds) name = Selected opt /\
        get_arg_type opt = arg_none.
Proof.
  destruct (String.eqb_spec tok "--") as [->|Hsep].
  { rewrite run_body_separator_log. no_raise. }
  unfold run_body. destruct (String.eqb_spec tok "--"); [contradiction|].
  destruct (regex_match_long tok) as [[name value]|] eqn:L.
  - rewrite run_long_resolve, parser_of_options.
    destruct (resolve_long (Log.options_from 0 ds) name) as [| |opt] eqn:R.
    + unfold bind. rewrite unrec_log. destruct du; no_raise.
    + unfold throw. no_raise.
    + destruct (options_from_nth ds 0 opt (resolve_long_selected_in _ _ _ _ R))
        as [i [d [_ ->]]].
      rewrite dispatch_long_log.
      destruct (Log.arity d) eqn:A; destruct value as [v|];
        try destruct rest as [|next rest]; try no_raise.
      * rewrite raises_thrown. split; [|reflexivity]. intros _.
        split; [exact Hsep|]. exists name, v, (Log.option_of i d).
        rewrite option_of_arg_type. auto.
      * rewrite raises_thrown. split; [|reflexivity]. intros _.
        split; [exact Hsep|]. exists name, v, (Log.option_of i d).
        rewrite option_of_arg_type. auto.
  - destruct (regex_match_short tok) as [chars|].
    + split.
      * intros H. destruct (run_short_log_not_allowed _ _ _ _ _ _ H).
      * intros; break_hyps; congruence.
    + destruct (run_body_other_log ds du flag tok rest t) as [t' [c ->]].
      no_raise.
Qed.

(** The pass at a token raises the error for a missing argument exactly
    when no token follows and either the token is a long option without an
    attached value whose name selects an option with a required argument,
    or it is a cluster whose loop arrives at its last character, which
    selects such an option. *)
Lemma run_body_log_required (ds : list Log.decl) (du : bool)
    (flag : parse_flag) (tok : string) (rest : list string) (t : Log.trace) :
  raises "argument required: "
    (run_body (Log.parser_of ds du flag) tok rest t)
  <-> rest = [] /\ tok <> "--" /\
      ((exists name opt,
           regex_match_long tok = Some (name, None) /\
           resolve_long (Log.options_from 0 ds) name = Selected opt /\
           get_arg_type opt = arg_required) \/
       (exists chars,
           regex_match_long tok = None /\
           regex_match_short tok = Some chars /\
           ends_required ds du chars)).
Proof.
  destruct (String.eqb_spec tok "--") as [->|Hsep].
  { rewrite run_body_separator_log. no_raise. }
  unfold run_body. destruct (String.eqb_spec tok "--"); [contradiction|].
  destruct (regex_match_long tok) as [[name value]|] eqn:L.
  - rewrite run_long_resolve, parser_of_options.
    destruct (resolve_long (Log.options_from 0 ds) name) as [| |opt] eqn:R.
    + unfold bind. rewrite unrec_log. destruct du; no_raise.
    + unfold throw. no_raise.
    + destruct (options_from_nth ds 0 opt (resolve_long_selected_in _ _ _ _ R))
        as [i [d [_ ->]]].
      rewrite dispatch_long_log.
      destruct (Log.arity d) eqn:A; destruct value as [v|];
        try destruct rest as [|next rest]; try no_raise.
      rewrite raises_thrown. split; [|reflexivity]. intros _.
      split; [reflexivity|]. split; [exact Hsep|]. left.
      exists name, (Log.option_of i d). rewrite option_of_arg_type. auto.
  - destruct (regex_match_short tok) as [chars|].
    + rewrite run_short_log_required. split.
      * intros [Hr He]. split; [exact Hr|]. split; [exact Hsep|].
        right. exists chars. auto.
      * intros [Hr [_ [H|[chars' [_ [Hc He]]]]]].
        -- break_hyps. discriminate.
        -- inversion Hc; subst. auto.
    + destruct (run_body_other_log ds du flag tok rest t) as [t' [c ->]].
      no_raise.
Qed.

(** With recording handlers, [run] fails with the error for a value
    that is not allowed exactly when its loop reaches a long-option token
    with a value attached by an equals sign whose name selects an option
    without an argument; and it fails with the error for a missing
    argument exactly when its loop reaches the last token and that token
    is either a long option without an attached value whose name selects
    an option with a required argument, or a cluster that is read up to
    its last character, which selects such an option. *)
Theorem argument_errors (ds : list Log.decl) (default_unrec : bool)
    (flag : parse_flag) (args : list string) (t : Log.trace) :
  (raises "argument not allowed: "
     (run (Log.parser_of ds default_unrec flag) args t)
   <-> exists tok rest t',
         reaches (Log.parser_of ds default_unrec flag) args t (tok :: rest) t'
         /\ tok <> "--" /\
         exists name v opt,
           regex_match_long tok = Some (name, Some v) /\
           resolve_long (Log.options_from 0 ds) name = Selected opt /\
           get_arg_type opt = arg_none) /\
  (raises "argument required: "
     (run (Log.parser_of ds default_unrec flag) args t)
   <-> exists tok t',
         reaches (Log.parser_of ds default_unrec flag) args t [tok] t'
         /\ tok <> "--" /\
         ((exists name opt,
              regex_match_long tok = Some (name, None) /\
              resolve_long (Log.options_from 0 ds) name = Selected opt /\
              get_arg_type opt = arg_required) \/
          (exists chars,
              regex_match_long tok = None /\
              regex_match_short tok = Some chars /\
              ends_required ds default_unrec chars))).
Proof.
  split; rewrite raises_run.
  - split.
    + intros [tok [rest [t' [Hreach Hraise]]]].
      apply run_body_log_not_allowed in Hraise.
      exists tok, rest, t'. tauto.
    + intros [tok [rest [t' [Hreach H]]]].
      exists tok, rest, t'. split; [exact Hreach|].
      apply run_body_log_not_allowed. exact H.
  - split.
    + intros [tok [rest [t' [Hreach Hraise]]]].
      apply run_body_log_required in Hraise.
      destruct Hraise as [-> H]. exists tok, t'. tauto.
    + intros [tok [t' [Hreach H]]].
      exists tok, [], t'. split; [exact Hreach|].
      apply run_body_log_required. tauto.
Qed.

Example argument_not_allowed_example :
  run (Log.parser_of [help_decl; b_decl] true flag_none)
      ["file"; "--help=yes"; "x"] []
  = ([Log.NonOptionHandler "file"],
     Thrown (error "argument not allowed: --help")).
Proof. reflexivity. Qed.

Example argument_required_example :
  run (Log.parser_of [a_decl; b_decl] true flag_none) ["-ab"] []
  = ([Log.OptionHandler 0 None], Thrown (error "argument required: -b")) /\
  run (Log.parser_of [a_decl; libdir_decl] true flag_none)
      ["-a"; "--libdir"] []
  = ([Log.OptionHandler 0 None],
     Thrown (error "argument required: --libdir")).
Proof. split; reflexivity. Qed.

(** ** Classification of tokens that start with two hyphens *)

(** Every string splits, in one way only, into a name free of equals signs
    and what [value_suffix] makes of an optional value. *)
Lemma long_token_decompose (r : string) :
  exists name value, r = name ++ value_suffix value /\ no_equals name = true.
Proof.
  destruct (not_equals_star r) as [name after] eqn:E.
  apply not_equals_star_inv in E. destruct E as [Hr [Hn [->|[v ->]]]].
  - exists name, None. auto.
  - exists name, (Some v). auto.
Qed.

(** The calls a pass at a long-option token records. *)
Lemma run_long_log_events (ds : list Log.decl) (du : bool) (flag : parse_flag)
    (tok name : string) (value : option string) (rest : list string)
    (t : Log.trace) :
  exists evs o,
    run_long (Log.parser_of ds du flag) tok name value rest t
    = ((t ++ evs)%list, o) /\
    forall a, ~ In (Log.NonOptionHandler a) evs.
Proof.
  rewrite run_long_resolve, parser_of_options.
  destruct (resolve_long (Log.options_from 0 ds) name) as [| |opt] eqn:R.
  - unfold bind. rewrite unrec_log. destruct du.
    + exists [], (Thrown (error ("unrecognized option: " ++ tok))).
      rewrite app_nil_r. split; [reflexivity|]. intros a [].
    + exists [Log.UnrecOptionHandler tok], (Returned (Next false)).
      split; [reflexivity|]. intros a [H|[]]. discriminate H.
  - exists [], (Thrown (error ("ambiguous option: --" ++ name))).
    rewrite app_nil_r. split; [reflexivity|]. intros a [].
  - destruct (options_from_nth ds 0 opt (resolve_long_selected_in _ _ _ _ R))
      as [i [d [_ ->]]].
    rewrite dispatch_long_log.
    destruct (Log.arity d); destruct value as [v|];
      try destruct rest as [|next rest];
      first [ eexists [_], _; split;
              [reflexivity|intros a [H|[]]; discriminate H]
            | eexists [], _; rewrite app_nil_r; split;
              [reflexivity|intros a []] ].
Qed.

(** A token made of two hyphens, a name free of equals
    signs and, optionally, an equals sign and a value free of line
    terminators, the separator [--] apart, is read by the pass that
    reaches it as a long option with that name and value, whatever the
    mode; with recording handlers that pass makes no call of the
    non-option handler. *)
Theorem long_option_classification :
  (forall (St : Type) (p : basic_parser St) (name : string)
          (value : option string) (rest : list string) (s : St),
      no_equals name = true ->
      (forall v, value = Some v -> dot_star v = true) ->
      "--" ++ name ++ value_suffix value <> "--" ->
      regex_match_long ("--" ++ name ++ value_suffix value)
      = Some (name, value) /\
      run_body p ("--" ++ name ++ value_suffix value) rest s
      = run_long p ("--" ++ name ++ value_suffix value) name value rest s) /\
  (forall (ds : list Log.decl) (default_unrec : bool) (flag : parse_flag)
          (name : string) (value : option string) (rest : list string)
          (t : Log.trace),
      no_equals name = true ->
      (forall v, value = Some v -> dot_star v = true) ->
      "--" ++ name ++ value_suffix value <> "--" ->
      exists evs o,
        run_body (Log.parser_of ds default_unrec flag)
          ("--" ++ name ++ value_suffix value) rest t
        = ((t ++ evs)%list, o) /\
        forall a, ~ In (Log.NonOptionHandler a) evs).
Proof.
  assert (G : forall (name : string) (value : option string),
             no_equals name = true ->
             (forall v, value = Some v -> dot_star v = true) ->
             regex_match_long ("--" ++ name ++ value_suffix value)
             = Some (name, value)).
  { intros name value Hn Hv. apply regex_match_long_iff. auto. }
  split.
  - intros St p name value rest s Hn Hv Hsep. split; [apply G; assumption|].
    apply run_body_long; [exact Hsep|apply G; assumption].
  - intros ds du flag name value rest t Hn Hv Hsep.
    rewrite (run_body_long _ _ _ name value _ _ Hsep (G _ _ Hn Hv)).
    apply run_long_log_events.
Qed.

Lemma long_option_classification_example :
  regex_match_long "--=v" = Some ("", Some "v") /\
  regex_match_long "---x" = Some ("-x", None) /\
  run_body (Log.parser_of [help_decl; output_decl] false posixly_correct)
    "---x" ["y"] []
  = ([Log.UnrecOptionHandler "---x"], Returned (Next false)).
Proof.
  split; [|split].
  - apply (proj1 long_option_classification Log.trace
             (Log.parser_of [help_decl; output_decl] false posixly_correct)
             "" (Some "v") [] []).
    + reflexivity.
    + intros v H. inversion H. reflexivity.
    + discriminate.
  - apply (proj1 long_option_classification Log.trace
             (Log.parser_of [help_decl; output_decl] false posixly_correct)
             "-x" None [] []).
    + reflexivity.
    + intros v H. discriminate H.
    + discriminate.
  - destruct (proj1 long_option_classification Log.trace
                (Log.parser_of [help_decl; output_decl] false posixly_correct)
                "-x" None ["y"] []) as [_ H].
    + reflexivity.
    + intros v H. discriminate H.
    + discriminate.
    + exact H.
Defined.

(** What the value group [.*] of the long-option pattern does to a value
    with a line feed or a carriage return in it: the pattern rejects the
    whole token, and so does the short-option pattern. *)
Lemma line_terminator_in_value_rejected (name value : string) :
  no_equals name = true ->
  dot_star value = false ->
  regex_match_long ("--" ++ name ++ "=" ++ value) = None /\
  regex_match_short ("--" ++ name ++ "=" ++ value) = None.
Proof.
  intros Hname Hvalue. split.
  - destruct (regex_match_long ("--" ++ name ++ "=" ++ value))
      as [[n v]|] eqn:E; [|reflexivity].
    apply regex_match_long_iff in E. destruct E as [Heq [Hn Hv]].
    simpl in Heq. inversion Heq as [Hrest].
    assert (Hsplit : not_equals_star (name ++ value_suffix (Some value))
                     = not_equals_star (n ++ value_suffix v))
      by (simpl; rewrite Hrest; reflexivity).
    rewrite (not_equals_star_name _ _ Hname),
            (not_equals_star_name _ _ Hn) in Hsplit.
    inversion Hsplit as [[Hname' Hsuffix]]. destruct v as [v|]; simpl in Hsuffix;
      [|discriminate Hsuffix].
    inversion Hsuffix; subst v. rewrite (Hv value eq_refl) in Hvalue.
    discriminate Hvalue.
  - destruct (regex_match_short ("--" ++ name ++ "=" ++ value))
      as [chars|] eqn:E; [|reflexivity].
    apply regex_match_short_iff in E. destruct E as [Heq [_ Hdot]].
    simpl in Heq. inversion Heq; subst chars.
    simpl in Hdot. rewrite !dot_star_app in Hdot. simpl in Hdot.
    rewrite Hvalue, !andb_false_r in Hdot. discriminate Hdot.
Qed.

(** C10 (the code at the failing input): the token made of [--output=a], a
    line feed and [b] starts with two hyphens and is not [--], yet the
    long-option pattern rejects it, because its [.] does not match a line
    feed, and [run] hands the token to the non-option handler; the
    handler of [--output] is not called. *)
Lemma long_token_with_line_feed_is_non_option :
  regex_match_long ("--output=a" ++ newline ++ "b") = None /\
  run (Log.parser_of [help_decl; output_decl] true flag_none)
      ["--output=a" ++ newline ++ "b"] []
  = ([Log.NonOptionHandler ("--output=a" ++ newline ++ "b")], Returned tt).
Proof. split; reflexivity. Qed.

(** C4 (the code at the failing input): [--libdir] takes a required
    argument, and the token made of [--libdir=a], a line feed and [b] is
    of the form [--name=value]; yet the handler of [--libdir] is not
    called with that value, nor at all: the token goes to the non-option
    handler, in both modes, and the scan goes on. *)
Lemma attached_value_with_line_feed_is_not_delivered :
  run (Log.parser_of [help_decl; output_decl; libdir_decl] true flag_none)
      ["--libdir=a" ++ newline ++ "b"; "--help"] []
  = ([Log.NonOptionHandler ("--libdir=a" ++ newline ++ "b");
      Log.OptionHandler 0 None], Returned tt) /\
  run (Log.parser_of [help_decl; output_decl; libdir_decl] true
                     posixly_correct)
      ["--libdir=a" ++ newline ++ "b"; "--help"] []
  = ([Log.NonOptionHandler ("--libdir=a" ++ newline ++ "b");
      Log.NonOptionHandler "--help"], Returned tt).
Proof. split; reflexivity. Qed.

(** C5 (the code at the failing input): [--help] takes no argument, and
    the token made of [--help=a], a line feed and [b] attaches a value to
    it with an equals sign; yet [run] raises no error for a value that is
    not allowed: it returns, having handed the token to the non-option
    handler. *)
Lemma value_with_line_feed_on_no_argument_option_raises_nothing :
  run (Log.parser_of [help_decl; output_decl; libdir_decl] true flag_none)
      ["--help=a" ++ newline ++ "b"] []
  = ([Log.NonOptionHandler ("--help=a" ++ newline ++ "b")], Returned tt) /\
  ~ raises "argument not allowed: "
      (run (Log.parser_of [help_decl; output_decl; libdir_decl] true
                          flag_none)
           ["--help=a" ++ newline ++ "b"] []).
Proof.
  split; [reflexivity|]. intros [msg [H _]]. discriminate H.
Qed.

(** ** Layout of the help text *)

Lemma help_widths_spec (St : Type) (options : list (basic_option St)) :
  forall (helps : list (string * string * string)) (col0 col1 : nat),
    help_widths options helps col0 col1
    = ((helps ++ map option_get_help options)%list,
       Nat.max col0 (widest true options),
       Nat.max col1 (widest false options)).
Proof.
  unfold widest.
  induction options as [|opt options IH]; intros helps col0 col1; simpl.
  - rewrite app_nil_r, !Nat.max_0_r. reflexivity.
  - rewrite IH, <- app_assoc, !Nat.max_assoc. reflexivity.
Qed.

Lemma help_desc_loop_later (col0 col1 : nat) (lns : list string) :
  forall ss : string,
    help_desc_loop col0 col1 lns false ss
    = ss ++ String.concat ""
              (map (fun ln => newline ++ spaces (col0 + col1) ++ ln) lns).
Proof.
  induction lns as [|ln lns IH]; intros ss; simpl.
  - rewrite append_nil_r. reflexivity.
  - rewrite IH. unfold setw_left. simpl. rewrite Nat.sub_0_r.
    destruct lns as [|ln' lns]; simpl.
    + rewrite !append_nil_r, !append_assoc. reflexivity.
    + rewrite !append_assoc. reflexivity.
Qed.

Lemma concat_later (sep : string) (ln : string) (lns : list string) :
  String.concat sep (ln :: lns)
  = ln ++ String.concat "" (map (fun l => sep ++ l) lns).
Proof.
  revert ln; induction lns as [|ln' lns IH]; intros ln.
  - simpl. rewrite append_nil_r. reflexivity.
  - change (String.concat sep (ln :: ln' :: lns))
      with (ln ++ sep ++ String.concat sep (ln' :: lns)).
    rewrite IH. simpl. destruct lns; simpl.
    + rewrite !append_nil_r. reflexivity.
    + rewrite !append_assoc. reflexivity.
Qed.

Lemma help_desc_loop_spec (col0 col1 : nat) (lns : list string) (ss : string) :
  help_desc_loop col0 col1 lns true ss
  = ss ++ String.concat (newline ++ spaces (col0 + col1)) lns.
Proof.
  destruct lns as [|ln lns].
  - simpl. rewrite append_nil_r. reflexivity.
  - cbn [help_desc_loop]. rewrite help_desc_loop_later, concat_later.
    rewrite append_assoc. reflexivity.
Qed.

Lemma help_rows_loop_later (col0 col1 : nat)
    (helps : list (string * string * string)) :
  forall ss : string,
    help_rows_loop col0 col1 helps false ss
    = ss ++ String.concat ""
              (map (fun help => newline ++ help_block col0 col1 help) helps).
Proof.
  induction helps as [|help helps IH]; intros ss.
  - simpl. rewrite append_nil_r. reflexivity.
  - cbn [help_rows_loop]. rewrite IH, help_desc_loop_spec.
    unfold help_block. cbn [map].
    destruct helps as [|help' helps].
    + simpl. rewrite !append_nil_r, !append_assoc. reflexivity.
    + change (String.concat "" (?x :: ?y :: ?l))
        with (x ++ "" ++ String.concat "" (y :: l)).
      simpl. rewrite !append_assoc. reflexivity.
Qed.

Lemma help_rows_loop_spec (col0 col1 : nat)
    (helps : list (string * string * string)) (ss : string) :
  help_rows_loop col0 col1 helps true ss
  = ss ++ String.concat newline (map (help_block col0 col1) helps).
Proof.
  destruct helps as [|help helps].
  - simpl. rewrite append_nil_r. reflexivity.
  - cbn [help_rows_loop map]. rewrite help_rows_loop_later, concat_later.
    rewrite help_desc_loop_spec, map_map. unfold help_block.
    rewrite !append_assoc. reflexivity.
Qed.

Lemma spaces_length (n : nat) : String.length (spaces n) = n.
Proof. induction n; simpl; congruence. Qed.

Lemma setw_left_length (w : nat) (s : string) :
  String.length s <= w -> String.length (setw_left w s) = w.
Proof.
  intros H. unfold setw_left. rewrite append_length, spaces_length. lia.
Qed.

Lemma list_max_ge (l : list nat) (n : nat) : In n l -> n <= list_max l.
Proof.
  induction l as [|m l IH]; simpl; [tauto|].
  intros [->|H]; [lia|specialize (IH H); lia].
Qed.

(** C9 (as amended): [get_help] writes the header and a line feed, then
    the options' blocks with a single line feed (no blank line) between one
    block and the next; [col0] is one more than the widest short field and
    [col1] one more than the widest long field; in a block the short field
    is padded to exactly [col0] characters and the long field to exactly
    [col1], and every line of the description after the first starts on a
    new line behind [col0 + col1] spaces. *)
Theorem get_help_layout (St : Type) (p : basic_parser St) (header : string) :
  get_help p header
  = header ++ newline ++
    String.concat newline
      (map (fun opt =>
              help_block (S (widest true (m_options p)))
                         (S (widest false (m_options p)))
                         (option_get_help opt))
           (m_options p)) /\
  (forall opt, In opt (m_options p) ->
     String.length (setw_left (S (widest true (m_options p)))
                              (fst (fst (option_get_help opt))))
     = S (widest true (m_options p)) /\
     String.length (setw_left (S (widest false (m_options p)))
                              (snd (fst (option_get_help opt))))
     = S (widest false (m_options p))).
Proof.
  split.
  - unfold get_help. rewrite help_widths_spec. cbn [app Nat.max].
    rewrite help_rows_loop_spec, map_map, append_assoc. reflexivity.
  - intros opt Hin. split; apply setw_left_length; apply Nat.le_le_succ_r;
      apply list_max_ge;
      [ apply (in_map (fun o => String.length (fst (fst (option_get_help o)))))
      | apply (in_map (fun o => String.length (snd (fst (option_get_help o))))) ];
      exact Hin.
Qed.

Lemma get_help_layout_example :
  String.length
    (setw_left
       (S (widest true
             (m_options (Log.parser_of [help_decl; libdir_decl] true flag_none))))
       (fst (fst (option_get_help (Log.option_of 0 help_decl)))))
  = 7.
Proof.
  apply (proj2 (get_help_layout Log.trace
                  (Log.parser_of [help_decl; libdir_decl] true flag_none) "")
               (Log.option_of 0 help_decl)).
  left. reflexivity.
Defined.

(** C9 (the claim as stated fails): two options give a header line and two
    lines, the second block right under the first, with no blank line in
    between. *)
Lemma get_help_has_no_blank_line :
  get_help (Log.parser_of [help_decl; output_decl] true flag_none) "usage"
  = "usage" ++ newline ++
    "-h       --help          show help message" ++ newline ++
    "-o[FILE] --output[=FILE] write output to FILE".
Proof. reflexivity. Qed.

(** A description of two lines: the second is indented by the two columns,
    here 7 + 13 spaces. *)
Lemma get_help_continuation_line :
  get_help (Log.parser_of [help_decl; libdir_decl] true flag_none) "usage"
  = "usage" ++ newline ++
    "-h     --help       show help message" ++ newline ++
    "-L DIR --libdir=DIR library directory" ++ newline ++
    "                    (repeatable)".
Proof. reflexivity. Qed.

(** * Further properties *)

(** ** Matching of short names *)

(** X1: [match] on a character answers [exact] exactly when the character
    is one of the declared short names and [none] otherwise; it never
    answers [partial]. *)
Theorem match_short_spec (St : Type) (opt : basic_option St) (c : ascii) :
  (match_short opt c = match_exact <-> In c (m_short_names opt)) /\
  (match_short opt c = match_none <-> ~ In c (m_short_names opt)) /\
  match_short opt c <> match_partial.
Proof.
  unfold match_short.
  induction (m_short_names opt) as [|name names [IHe [IHn IHp]]]; simpl.
  - repeat split; try discriminate; tauto.
  - destruct (Ascii.eqb_spec name c) as [->|Hne].
    + repeat split; try discriminate; tauto.
    + rewrite IHe, IHn. tauto.
Qed.

(** ** The display fields of an option *)

Lemma short_help_loop_later (St : Type) (opt : basic_option St)
    (names : list ascii) :
  forall oss : string,
    short_help_loop opt names false oss
    = oss ++ String.concat ""
               (map (fun c => "," ++ "-" ++ String c "" ++ short_arg_suffix opt)
                    names).
Proof.
  unfold short_arg_suffix.
  induction names as [|c names IH]; intros oss; cbn [short_help_loop map].
  - simpl. rewrite append_nil_r. reflexivity.
  - rewrite IH. destruct names as [|c' names];
      destruct (m_arg_type opt); simpl;
      rewrite ?append_nil_r, ?append_assoc; simpl;
      rewrite ?append_assoc; reflexivity.
Qed.

Lemma long_help_loop_later (St : Type) (opt : basic_option St)
    (names : list string) :
  forall oss : string,
    long_help_loop opt names false oss
    = oss ++ String.concat ""
               (map (fun s => "," ++ "--" ++ s ++ long_arg_suffix opt) names).
Proof.
  unfold long_arg_suffix.
  induction names as [|n names IH]; intros oss; cbn [long_help_loop map].
  - simpl. rewrite append_nil_r. reflexivity.
  - rewrite IH. destruct names as [|n' names];
      destruct (m_arg_type opt); simpl;
      rewrite ?append_nil_r, ?append_assoc; simpl;
      rewrite ?append_assoc; simpl; rewrite ?append_assoc; reflexivity.
Qed.

(** X2: the three fields of an option's help row: the short aliases, each
    written as a hyphen, the character and the argument suffix, joined by
    commas; the long aliases, each written as two hyphens, the name and the
    argument suffix, joined by commas; and the description as it is. *)
Theorem option_get_help_fields (St : Type) (opt : basic_option St) :
  option_get_help opt
  = (String.concat ","
       (map (fun c => "-" ++ String c "" ++ short_arg_suffix opt)
            (m_short_names opt)),
     String.concat ","
       (map (fun s => "--" ++ s ++ long_arg_suffix opt) (m_long_names opt)),
     m_description opt).
Proof.
  unfold option_get_help.
  assert (Hs : short_help_loop opt (m_short_names opt) true ""
               = String.concat ","
                   (map (fun c => "-" ++ String c "" ++ short_arg_suffix opt)
                        (m_short_names opt))).
  { destruct (m_short_names opt) as [|c names]; [reflexivity|].
    cbn [short_help_loop map]. rewrite short_help_loop_later, concat_later.
    rewrite map_map. unfold short_arg_suffix.
    destruct (m_arg_type opt); simpl; rewrite ?append_assoc; reflexivity. }
  assert (Hl : long_help_loop opt (m_long_names opt) true ""
               = String.concat ","
                   (map (fun s => "--" ++ s ++ long_arg_suffix opt)
                        (m_long_names opt))).
  { destruct (m_long_names opt) as [|n names]; [reflexivity|].
    cbn [long_help_loop map]. rewrite long_help_loop_later, concat_later.
    rewrite map_map. unfold long_arg_suffix.
    destruct (m_arg_type opt); simpl; rewrite ?append_assoc; simpl;
      rewrite ?append_assoc; reflexivity. }
  rewrite Hs, Hl. reflexivity.
Qed.

(** ** The assertions of [execute] *)

Lemma safe_ret (St A : Type) (a : A) : safe (@ret St A a).
Proof. intros s. discriminate. Qed.

Lemma safe_throw (St A : Type) (msg : string) : safe (@throw St A msg).
Proof. intros s. discriminate. Qed.

Lemma safe_bind (St A B : Type) (m : M St A) (k : A -> M St B) :
  safe m -> (forall a, safe (k a)) -> safe (bind m k).
Proof.
  intros Hm Hk s. unfold bind. specialize (Hm s).
  destruct (m s) as [s' [a| |]]; simpl in *.
  - apply Hk.
  - discriminate.
  - congruence.
Qed.

Lemma safe_execute (St : Type) (opt : basic_option St) :
  built opt -> get_arg_type opt <> arg_required -> safe (execute opt).
Proof.
  intros [sn ln h d Hh|sn ln h an d Hh|sn ln h an d Hh] Harg;
    unfold execute; simpl; try (exfalso; apply Harg; reflexivity);
    apply safe_bind; try (intros s; discriminate); intros _;
    [exact Hh|apply Hh].
Qed.

Lemma safe_execute_arg (St : Type) (opt : basic_option St) (v : string) :
  built opt -> get_arg_type opt <> arg_none -> safe (execute_arg opt v).
Proof.
  intros [sn ln h d Hh|sn ln h an d Hh|sn ln h an d Hh] Harg;
    unfold execute_arg; simpl; try (exfalso; apply Harg; reflexivity);
    apply safe_bind; try (intros s; discriminate); intros _.
  - apply Hh.
  - apply safe_bind; [intros s; discriminate|intros _; apply Hh].
Qed.

Lemma safe_dispatch_long (St : Type) (opt : basic_option St) (name : string)
    (value : option string) (rest : list string) :
  built opt -> safe (dispatch_long opt name value rest).
Proof.
  intros Hb. unfold dispatch_long.
  destruct (get_arg_type opt) eqn:E; destruct value as [v|];
    try destruct rest as [|next rest];
    try apply safe_throw;
    apply safe_bind;
    try (intros _; apply safe_ret);
    first [ apply safe_execute; [exact Hb|congruence]
          | apply safe_execute_arg; [exact Hb|congruence] ].
Qed.

Lemma find_if_in (A : Type) (pred : A -> bool) (l : list A) (x : A)
    (next : list A) :
  find_if pred l = x :: next ->
  In x l /\ forall y, In y next -> In y l.
Proof.
  intros H. destruct (find_if_suffix _ _ _ _ _ H) as [before ->].
  split; [|intros y Hy]; apply in_or_app; right; simpl; auto.
Qed.

Lemma safe_run_long (St : Type) (p : basic_parser St) (arg name : string)
    (value : option string) (rest : list string) :
  Forall built (m_options p) ->
  (forall a, safe (m_unrec_option_handler p a)) ->
  safe (run_long p arg name value rest).
Proof.
  intros Hb Hu. rewrite Forall_forall in Hb. unfold run_long, find_match_long.
  set (ex := fun opt : basic_option St =>
               match_type_eqb (match_long opt name) match_exact).
  set (pa := fun opt : basic_option St =>
               match_type_eqb (match_long opt name) match_partial).
  destruct (find_if ex (m_options p)) as [|opt next] eqn:E.
  - destruct (find_if pa (m_options p)) as [|opt next] eqn:E'.
    + apply safe_bind; [apply Hu|intros _; apply safe_ret].
    + destruct (find_if pa next); [|apply safe_throw].
      destruct (find_if ex next); [|apply safe_throw].
      apply safe_dispatch_long. apply Hb. apply (proj1 (find_if_in _ _ _ _ _ E')).
  - destruct (find_if ex next); [|apply safe_throw].
    apply safe_dispatch_long. apply Hb. apply (proj1 (find_if_in _ _ _ _ _ E)).
Qed.

Lemma safe_run_short (St : Type) (p : basic_parser St) (chars : string)
    (rest : list string) :
  Forall built (m_options p) ->
  (forall a, safe (m_unrec_option_handler p a)) ->
  safe (run_short p chars rest).
Proof.
  intros Hb Hu. rewrite Forall_forall in Hb.
  induction chars as [|name after IH]; cbn [run_short].
  - apply safe_ret.
  - unfold find_match_short.
    destruct (find_if _ (m_options p)) as [|opt next] eqn:E.
    + apply safe_bind; [apply Hu|intros _; exact IH].
    + destruct (find_if _ next); [|apply safe_throw].
      assert (Hopt : built opt) by (apply Hb; apply (proj1 (find_if_in _ _ _ _ _ E))).
      destruct (get_arg_type opt) eqn:A.
      * apply safe_bind; [|intros _; exact IH].
        apply safe_execute; [exact Hopt|congruence].
      * apply safe_bind; [|intros _; apply safe_ret].
        destruct (is_end after);
          [apply safe_execute|apply safe_execute_arg];
          try exact Hopt; congruence.
      * destruct (is_end after).
        -- destruct rest as [|next_arg rest]; [apply safe_throw|].
           apply safe_bind; [|intros _; apply safe_ret].
           apply safe_execute_arg; [exact Hopt|congruence].
        -- apply safe_bind; [|intros _; apply safe_ret].
           apply safe_execute_arg; [exact Hopt|congruence].
Qed.

Lemma safe_for_each (St : Type) (handler : string -> M St unit)
    (args : list string) :
  (forall a, safe (handler a)) -> safe (for_each handler args).
Proof.
  intros Hh. induction args as [|a args IH]; simpl.
  - apply safe_ret.
  - apply safe_bind; [apply Hh|intros _; exact IH].
Qed.

Lemma safe_run_body (St : Type) (p : basic_parser St) (arg : string)
    (rest : list string) :
  Forall built (m_options p) ->
  (forall a, safe (m_non_option_handler p a)) ->
  (forall a, safe (m_unrec_option_handler p a)) ->
  safe (run_body p arg rest).
Proof.
  intros Hb Hn Hu. unfold run_body.
  destruct (String.eqb arg "--").
  { apply safe_bind; [apply safe_for_each; exact Hn|intros _; apply safe_ret]. }
  destruct (regex_match_long arg) as [[name value]|].
  { apply safe_run_long; assumption. }
  destruct (regex_match_short arg) as [chars|].
  { apply safe_run_short; assumption. }
  destruct (m_flag p).
  - apply safe_bind; [apply Hn|intros _; apply safe_ret].
  - apply safe_bind; [apply safe_for_each; exact Hn|intros _; apply safe_ret].
Qed.

(** X3: whatever the input, [run] never trips an assertion of [execute] or
    of a stored handler: it calls the form without a value only on options
    that do not require one, and the form with a value only on options
    that take one.  So, for options made by the three constructors, a
    failed assertion can only come from the host's own handlers. *)
Theorem run_never_fails_assertion (St : Type) (p : basic_parser St) :
  Forall built (m_options p) ->
  (forall a, safe (m_non_option_handler p a)) ->
  (forall a, safe (m_unrec_option_handler p a)) ->
  forall args, safe (run p args).
Proof.
  intros Hb Hn Hu args.
  assert (H : forall n args, List.length args <= n -> safe (run p args)).
  { clear args. induction n as [|n IH]; intros args Hlen.
    - destruct args; [apply safe_ret|simpl in Hlen; lia].
    - destruct args as [|arg rest]; [apply safe_ret|].
      intros s. rewrite run_cons. revert s. apply safe_bind.
      + apply safe_run_body; assumption.
      + intros [adv|]; [|apply safe_ret]. apply IH.
        destruct rest as [|x rest']; simpl in *; [lia|].
        destruct adv; simpl; lia. }
  apply (H (List.length args)). lia.
Qed.

Lemma built_option_of (i : nat) (d : Log.decl) : built (Log.option_of i d).
Proof.
  unfold Log.option_of. destruct (Log.arity d); constructor;
    intros; intros s; discriminate.
Qed.

Lemma built_options_from (ds : list Log.decl) :
  forall i, Forall built (Log.options_from i ds).
Proof.
  induction ds as [|d ds IH]; intros i; simpl; constructor;
    [apply built_option_of|apply IH].
Qed.

Lemma run_never_fails_assertion_example :
  safe (run (Log.parser_of [help_decl; output_decl; libdir_decl] false
                           flag_none)
            ["-hL"; "--out"; "-x"]).
Proof.
  apply (run_never_fails_assertion Log.trace
           (Log.parser_of [help_decl; output_decl; libdir_decl] false
                          flag_none)).
  - apply built_options_from.
  - intros a s. discriminate.
  - intros a s. discriminate.
Defined.

(** ** Passes at option tokens *)

Lemma run_short_token_shape (St : Type) (p : basic_parser St)
    (tok chars : string) (rest : list string) (s : St) :
  regex_match_long tok = None ->
  regex_match_short tok = Some chars ->
  run p (tok :: rest) s
  = bind (run_short p chars rest)
         (fun c => match c with
                   | Break => ret tt
                   | Next advanced => run p (advance advanced rest)
                   end) s.
Proof.
  intros Hlong Hshort. rewrite run_cons. apply bind_ext_l. unfold run_body.
  destruct (String.eqb_spec tok "--") as [->|_]; [discriminate Hlong|].
  rewrite Hlong, Hshort. reflexivity.
Qed.

Lemma run_long_token_shape (St : Type) (p : basic_parser St)
    (tok name : string) (value : option string) (rest : list string) (s : St) :
  tok <> "--" ->
  regex_match_long tok = Some (name, value) ->
  run p (tok :: rest) s
  = bind (run_long p tok name value rest)
         (fun c => match c with
                   | Break => ret tt
                   | Next advanced => run p (advance advanced rest)
                   end) s.
Proof.
  intros Hsep Hlong. rewrite run_cons. apply bind_ext_l.
  apply run_body_long; assumption.
Qed.

Lemma run_short_flags (St : Type) (p : basic_parser St) (pre : string)
    (opts : list (basic_option St)) (chars : string) (rest : list string) :
  flags p pre opts ->
  forall s, run_short p (pre ++ chars) rest s
            = (call_all opts ;;; run_short p chars rest) s.
Proof.
  induction 1 as [|c pre opt opts Hsel Harg _ IH]; intros s.
  - reflexivity.
  - cbn [append call_all]. rewrite (run_short_none _ _ _ _ _ _ _ Hsel Harg).
    rewrite bind_assoc. apply bind_ext. intros _ s'. apply IH.
Qed.

(** X4: a cluster made only of options without an argument calls their
    handlers once each, in the order of the characters, uses up that one
    token and goes on with the next. *)
Theorem run_cluster_of_flags (St : Type) (p : basic_parser St)
    (tok pre : string) (opts : list (basic_option St)) (rest : list string)
    (s : St) :
  regex_match_long tok = None ->
  regex_match_short tok = Some pre ->
  flags p pre opts ->
  run p (tok :: rest) s = (call_all opts ;;; run p rest) s.
Proof.
  intros Hlong Hshort Hflags.
  rewrite (run_short_token_shape _ _ _ _ _ _ Hlong Hshort).
  rewrite (bind_ext_l _ _ _ _ (call_all opts ;;; ret (Next false))).
  - rewrite bind_assoc. apply bind_ext. intros _ s'.
    destruct rest; reflexivity.
  - rewrite <- (append_nil_r pre) at 1.
    rewrite (run_short_flags _ _ _ _ "" rest Hflags). reflexivity.
Qed.

Lemma run_cluster_of_flags_example :
  run (Log.parser_of [a_decl; v_decl; b_decl] true flag_none)
      ["-vav"; "x"] []
  = ([Log.OptionHandler 1 None; Log.OptionHandler 0 None;
      Log.OptionHandler 1 None; Log.NonOptionHandler "x"], Returned tt).
Proof.
  rewrite (run_cluster_of_flags Log.trace
             (Log.parser_of [a_decl; v_decl; b_decl] true flag_none)
             "-vav" "vav"
             [Log.option_of 1 v_decl; Log.option_of 0 a_decl;
              Log.option_of 1 v_decl] ["x"] []).
  - reflexivity.
  - reflexivity.
  - reflexivity.
  - repeat (constructor; try reflexivity).
Defined.

(** In a cluster, after options without an argument, an option that
    takes an argument (optional or required) and is followed by more
    characters gets those characters as its value, whatever they are; the
    token is then used up and the next token is not touched. *)
Lemma run_cluster_attached_value_shape (St : Type) (p : basic_parser St)
    (tok pre : string) (opts : list (basic_option St)) (c : ascii)
    (after : string) (opt : basic_option St) (rest : list string) (s : St) :
  regex_match_long tok = None ->
  regex_match_short tok = Some (pre ++ String c after) ->
  flags p pre opts ->
  resolve_short (m_options p) c = Selected opt ->
  get_arg_type opt <> arg_none ->
  after <> "" ->
  run p (tok :: rest) s
  = (call_all opts ;;; m_handler opt (Some after) ;;; run p rest) s.
Proof.
  intros Hlong Hshort Hflags Hsel Harg Hne.
  rewrite (run_short_token_shape _ _ _ _ _ _ Hlong Hshort).
  rewrite (bind_ext_l _ _ _ _
             (call_all opts ;;; m_handler opt (Some after) ;;;
              ret (Next false))).
  - rewrite bind_assoc. apply bind_ext. intros _ s1.
    rewrite bind_assoc. apply bind_ext. intros _ s2.
    destruct rest; reflexivity.
  - rewrite (run_short_flags _ _ _ _ _ rest Hflags).
    apply bind_ext. intros _ s1.
    rewrite run_short_resolve, Hsel. unfold dispatch_short.
    destruct after as [|a after]; [congruence|]. cbn [is_end].
    destruct (get_arg_type opt) eqn:A; [congruence| |];
      apply bind_ext_l; apply execute_arg_handler; congruence.
Qed.

(** In a cluster, after options without an argument, an option with an
    optional argument that ends the cluster is called without a value; the
    next token is not taken as its value but scanned in its turn. *)
Lemma run_cluster_optional_at_end_shape (St : Type) (p : basic_parser St)
    (tok pre : string) (opts : list (basic_option St)) (c : ascii)
    (opt : basic_option St) (rest : list string) (s : St) :
  regex_match_long tok = None ->
  regex_match_short tok = Some (pre ++ String c "") ->
  flags p pre opts ->
  resolve_short (m_options p) c = Selected opt ->
  get_arg_type opt = arg_optional ->
  run p (tok :: rest) s
  = (call_all opts ;;; m_handler opt None ;;; run p rest) s.
Proof.
  intros Hlong Hshort Hflags Hsel Harg.
  rewrite (run_short_token_shape _ _ _ _ _ _ Hlong Hshort).
  rewrite (bind_ext_l _ _ _ _
             (call_all opts ;;; m_handler opt None ;;; ret (Next false))).
  - rewrite bind_assoc. apply bind_ext. intros _ s1.
    rewrite bind_assoc. apply bind_ext. intros _ s2.
    destruct rest; reflexivity.
  - rewrite (run_short_flags _ _ _ _ _ rest Hflags).
    apply bind_ext. intros _ s1.
    rewrite run_short_resolve, Hsel. unfold dispatch_short.
    rewrite Harg. cbn [is_end].
    apply bind_ext_l. apply execute_handler. congruence.
Qed.

(** In a cluster, after options without an argument, an option with a
    required argument that ends the cluster takes the whole next token as
    its value, whatever that token looks like, and the scan goes on after
    it; when no token follows, [run] throws the error for a missing
    argument, after the handlers of the earlier options have run. *)
Lemma run_cluster_required_at_end_shape (St : Type) (p : basic_parser St)
    (tok pre : string) (opts : list (basic_option St)) (c : ascii)
    (opt : basic_option St) (s : St) :
  regex_match_long tok = None ->
  regex_match_short tok = Some (pre ++ String c "") ->
  flags p pre opts ->
  resolve_short (m_options p) c = Selected opt ->
  get_arg_type opt = arg_required ->
  (forall next rest,
      run p (tok :: next :: rest) s
      = (call_all opts ;;; m_handler opt (Some next) ;;; run p rest) s) /\
  run p [tok] s
  = (call_all opts ;;;
     throw ("argument required: -" ++ String c "")) s.
Proof.
  intros Hlong Hshort Hflags Hsel Harg. split.
  - intros next rest.
    rewrite (run_short_token_shape _ _ _ _ _ _ Hlong Hshort).
    rewrite (bind_ext_l _ _ _ _
               (call_all opts ;;; m_handler opt (Some next) ;;;
                ret (Next true))).
    + rewrite bind_assoc. apply bind_ext. intros _ s1.
      rewrite bind_assoc. apply bind_ext. intros _ s2. reflexivity.
    + rewrite (run_short_flags _ _ _ _ _ _ Hflags).
      apply bind_ext. intros _ s1.
      apply (run_short_required_next _ _ _ _ _ _ _ Hsel Harg).
  - rewrite (run_short_token_shape _ _ _ _ _ _ Hlong Hshort).
    rewrite (bind_ext_l _ _ _ _
               (call_all opts ;;;
                throw ("argument required: -" ++ String c ""))).
    + rewrite bind_assoc. apply bind_ext. intros _ s1. reflexivity.
    + rewrite (run_short_flags _ _ _ _ _ _ Hflags).
      apply bind_ext. intros _ s1.
      apply (run_short_required_missing _ _ _ _ _ Hsel Harg).
Qed.

(** ** Long options without an attached value *)

Lemma run_long_selected (St : Type) (p : basic_parser St) (tok name : string)
    (value : option string) (opt : basic_option St) (rest : list string)
    (s : St) :
  tok <> "--" ->
  regex_match_long tok = Some (name, value) ->
  resolve_long (m_options p) name = Selected opt ->
  run p (tok :: rest) s
  = bind (dispatch_long opt name value rest)
         (fun c => match c with
                   | Break => ret tt
                   | Next advanced => run p (advance advanced rest)
                   end) s.
Proof.
  intros Hsep Hlong Hsel.
  rewrite (run_long_token_shape _ _ _ _ _ _ _ Hsep Hlong).
  apply bind_ext_l. rewrite run_long_resolve, Hsel. reflexivity.
Qed.

(** X8: a long option written without an equals sign.  If the selected
    option does not require an argument, its handler is called without a
    value and the next token is scanned in its turn.  If it requires one,
    the whole next token is the value, whatever it looks like, and the
    scan goes on after it; when no token follows, [run] throws the error
    for a missing argument without calling any handler. *)
Theorem run_long_without_value (St : Type) (p : basic_parser St)
    (tok name : string) (opt : basic_option St) (s : St) :
  tok <> "--" ->
  regex_match_long tok = Some (name, None) ->
  resolve_long (m_options p) name = Selected opt ->
  (get_arg_type opt <> arg_required ->
   forall rest,
     run p (tok :: rest) s = (m_handler opt None ;;; run p rest) s) /\
  (get_arg_type opt = arg_required ->
   (forall next rest,
       run p (tok :: next :: rest) s
       = (m_handler opt (Some next) ;;; run p rest) s) /\
   run p [tok] s = (s, Thrown (error ("argument required: --" ++ name)))).
Proof.
  intros Hsep Hlong Hsel. split; [|split].
  - intros Harg rest.
    rewrite (run_long_selected _ _ _ _ _ _ _ _ Hsep Hlong Hsel).
    unfold dispatch_long.
    destruct (get_arg_type opt) eqn:A; [| |congruence];
      rewrite bind_assoc;
      (transitivity (bind (m_handler opt None)
                          (fun _ => run p (advance false rest)) s);
       [apply bind_ext_l; apply execute_handler; congruence
       |apply bind_ext; intros _ s'; destruct rest; reflexivity]).
  - intros next rest.
    rewrite (run_long_selected _ _ _ _ _ _ _ _ Hsep Hlong Hsel).
    unfold dispatch_long. rewrite H. rewrite bind_assoc.
    transitivity (bind (m_handler opt (Some next))
                       (fun _ => run p (advance true (next :: rest))) s).
    + apply bind_ext_l. apply execute_arg_handler. congruence.
    + apply bind_ext. reflexivity.
  - rewrite (run_long_selected _ _ _ _ _ _ _ _ Hsep Hlong Hsel).
    unfold dispatch_long. rewrite H. reflexivity.
Qed.

Lemma run_long_without_value_example :
  run (Log.parser_of [help_decl; libdir_decl] true flag_none)
      ["--lib"; "--help"; "--help"] []
  = ([Log.OptionHandler 1 (Some "--help"); Log.OptionHandler 0 None],
     Returned tt) /\
  run (Log.parser_of [help_decl; libdir_decl] true flag_none)
      ["--help"; "--lib"] []
  = ([Log.OptionHandler 0 None],
     Thrown (error "argument required: --lib")).
Proof.
  destruct (run_long_without_value Log.trace
              (Log.parser_of [help_decl; libdir_decl] true flag_none)
              "--lib" "lib" (Log.option_of 1 libdir_decl) [])
    as [_ Hreq]; [discriminate|reflexivity|reflexivity|].
  destruct (run_long_without_value Log.trace
              (Log.parser_of [help_decl; libdir_decl] true flag_none)
              "--help" "help" (Log.option_of 0 help_decl) [])
    as [Hnone _]; [discriminate|reflexivity|reflexivity|].
  split.
  - rewrite (proj1 (Hreq eq_refl)). reflexivity.
  - rewrite Hnone by discriminate. reflexivity.
Defined.

(** ** Unrecognized long options *)

(** A long-option token whose name no option matches, exactly or as a
    prefix, is handed whole (hyphens and attached value included) to the
    handler for unrecognized options, and the scan goes on with the next
    token if the handler returns; with the parser's default handler [run]
    throws at once an error whose message is [unrecognized option: ]
    followed by the token. *)
Lemma run_long_unrecognized_shape (St : Type) :
  (forall (p : basic_parser St) (tok name : string) (value : option string)
          (rest : list string) (s : St),
      tok <> "--" ->
      regex_match_long tok = Some (name, value) ->
      resolve_long (m_options p) name = Unrecognized ->
      run p (tok :: rest) s
      = (m_unrec_option_handler p tok ;;; run p rest) s) /\
  (forall (options : list (basic_option St))
          (non_option_handler : string -> M St unit) (flag : parse_flag)
          (tok name : string) (value : option string)
          (rest : list string) (s : St),
      tok <> "--" ->
      regex_match_long tok = Some (name, value) ->
      resolve_long options name = Unrecognized ->
      run (parser_default options non_option_handler flag) (tok :: rest) s
      = (s, Thrown (error ("unrecognized option: " ++ tok)))).
Proof.
  assert (G : forall (p : basic_parser St) (tok name : string)
                     (value : option string) (rest : list string) (s : St),
             tok <> "--" ->
             regex_match_long tok = Some (name, value) ->
             resolve_long (m_options p) name = Unrecognized ->
             run p (tok :: rest) s
             = (m_unrec_option_handler p tok ;;; run p rest) s).
  { intros p tok name value rest s Hsep Hlong Hres.
    rewrite (run_long_token_shape _ _ _ _ _ _ _ Hsep Hlong).
    rewrite (bind_ext_l _ _ _ _
               (m_unrec_option_handler p tok ;;; ret (Next false))).
    - rewrite bind_assoc. apply bind_ext. intros _ s'.
      destruct rest; reflexivity.
    - rewrite run_long_resolve, Hres. reflexivity. }
  split; [exact G|].
  intros options nh flag tok name value rest s Hsep Hlong Hres.
  rewrite (G _ tok name value) by assumption. reflexivity.
Qed.

(** ** Abbreviated long names *)






(** ** Short names declared twice *)

(** X11: at a character of a cluster that two or more options declare,
    the loop throws the ambiguity error for that character at once: no
    handler is called for it and the rest of the cluster is not read. *)
Theorem run_short_ambiguous (St : Type) (p : basic_parser St) (name : ascii)
    (after : string) (rest : list string) (s : St) :
  2 <= List.length (matching_short (m_options p) name) ->
  run_short p (String name after) rest s
  = (s, Thrown (error ("ambiguous option: -" ++ String name ""))).
Proof.
  intros H. rewrite run_short_resolve. unfold resolve_short.
  destruct (matching_short (m_options p) name) as [|o [|o' l]];
    simpl in H; try lia. reflexivity.
Qed.

Lemma run_short_ambiguous_example :
  run_short (Log.parser_of [a_decl; v_decl; a_decl] true flag_none)
            "ava" [] []
  = ([], Thrown (error "ambiguous option: -a")).
Proof.
  apply (run_short_ambiguous Log.trace
           (Log.parser_of [a_decl; v_decl; a_decl] true flag_none)
           "a" "va" [] []).
  simpl. lia.
Defined.

(** ** Operands *)

(** X12: in the standard mode, a token that is not [--] and that neither
    option pattern accepts is handed to the non-option handler, and the
    scan goes on with the next token: options that come after operands
    are still read. *)
Theorem run_standard_non_option (St : Type) (p : basic_parser St)
    (tok : string) (rest : list string) (s : St) :
  m_flag p = flag_none ->
  tok <> "--" ->
  regex_match_long tok = None ->
  regex_match_short tok = None ->
  run p (tok :: rest) s = (m_non_option_handler p tok ;;; run p rest) s.
Proof.
  intros Hflag Hsep Hlong Hshort. rewrite run_cons. unfold run_body.
  destruct (String.eqb_spec tok "--"); [contradiction|].
  rewrite Hlong, Hshort, Hflag, bind_assoc.
  apply bind_ext. intros _ s'. destruct rest; reflexivity.
Qed.

Lemma run_standard_non_option_example :
  run (Log.parser_of [v_decl] true flag_none) ["file1"; "-v"; "file2"] []
  = ([Log.NonOptionHandler "file1"; Log.OptionHandler 0 None;
      Log.NonOptionHandler "file2"], Returned tt).
Proof.
  rewrite (run_standard_non_option Log.trace
             (Log.parser_of [v_decl] true flag_none) "file1"
             ["-v"; "file2"] []).
  - reflexivity.
  - reflexivity.
  - discriminate.
  - reflexivity.
  - reflexivity.
Defined.

Lemma operand_shape (tok : string) :
  operand tok = true ->
  tok <> "--" /\ regex_match_long tok = None /\ regex_match_short tok = None.
Proof.
  intros H. rewrite regex_match_long_shape, regex_match_short_shape.
  unfold long_shape, short_shape.
  destruct tok as [|a [|b r]]; simpl in *.
  - repeat split. discriminate.
  - repeat split. discriminate.
  - apply negb_true_iff in H. rewrite H. simpl. repeat split.
    intros E. inversion E; subst. discriminate H.
Qed.

(** X13: when no token of the input starts with a hyphen (a lone hyphen
    apart), [run] hands every token to the non-option handler, in order,
    and calls nothing else, in either mode and whatever the options are. *)
Theorem run_operands_only (St : Type) (p : basic_parser St)
    (args : list string) (s : St) :
  forallb operand args = true ->
  run p args s = for_each (m_non_option_handler p) args s.
Proof.
  revert s. induction args as [|tok rest IH]; intros s Hall.
  - reflexivity.
  - simpl in Hall. apply andb_true_iff in Hall. destruct Hall as [Htok Hrest].
    destruct (operand_shape tok Htok) as [Hsep [Hlong Hshort]].
    rewrite run_cons. unfold run_body.
    destruct (String.eqb_spec tok "--"); [contradiction|].
    rewrite Hlong, Hshort. destruct (m_flag p).
    + rewrite bind_assoc. cbn [for_each]. apply bind_ext. intros _ s'.
      rewrite bind_ret_l. destruct rest as [|x rest']; [reflexivity|].
      apply IH. exact Hrest.
    + rewrite bind_assoc.
      rewrite <- (bind_ret_unit _ (for_each (m_non_option_handler p)
                                            (tok :: rest))).
      apply bind_ext. reflexivity.
Qed.

Lemma run_operands_only_example :
  run (Log.parser_of [v_decl] true flag_none) ["a"; "-"; ""; "b-c"] []
  = ([Log.NonOptionHandler "a"; Log.NonOptionHandler "-";
      Log.NonOptionHandler ""; Log.NonOptionHandler "b-c"], Returned tt).
Proof.
  rewrite (run_operands_only Log.trace
             (Log.parser_of [v_decl] true flag_none) ["a"; "-"; ""; "b-c"] []).
  - reflexivity.
  - reflexivity.
Defined.

(** ** Lines of a description *)

Lemma getlines_taken_nonempty (desc : string) :
  forall ln, getlines desc ln true <> [].
Proof.
  induction desc as [|c desc IH]; intros ln; simpl.
  - discriminate.
  - destruct (Ascii.eqb c "010"); [discriminate|apply IH].
Qed.

Lemma getlines_nonempty (c : ascii) (desc ln : string) (taken : bool) :
  getlines (String c desc) ln taken <> [].
Proof.
  simpl. destruct (Ascii.eqb c "010");
    [discriminate|apply getlines_taken_nonempty].
Qed.

Lemma concat_cons_nonempty (sep x : string) (xs : list string) :
  xs <> [] ->
  String.concat sep (x :: xs) = x ++ sep ++ String.concat sep xs.
Proof. destruct xs; [congruence|reflexivity]. Qed.

Lemma is_end_append_char (ln : string) (c : ascii) :
  is_end (ln ++ String c "") = false.
Proof. destruct ln; reflexivity. Qed.

Lemma getlines_join (desc : string) :
  forall ln : string,
    String.concat newline (getlines desc ln (negb (is_end ln)))
    ++ (if ends_with_newline desc then newline else "")
    = ln ++ desc.
Proof.
  induction desc as [|c desc IH]; intros ln.
  - destruct ln; reflexivity.
  - cbn [getlines]. destruct (Ascii.eqb_spec c "010"%char) as [->|Hc].
    + destruct desc as [|d desc]; [reflexivity|].
      rewrite concat_cons_nonempty by apply getlines_nonempty.
      change (ends_with_newline (String "010" (String d desc)))
        with (ends_with_newline (String d desc)).
      specialize (IH ""). cbn [is_end negb append] in IH.
      rewrite !append_assoc, IH. reflexivity.
    + specialize (IH (ln ++ String c "")).
      rewrite is_end_append_char in IH. cbn [negb] in IH.
      replace (ends_with_newline (String c desc))
        with (ends_with_newline desc).
      * rewrite IH, append_assoc. reflexivity.
      * destruct desc as [|d desc]; [|reflexivity].
        simpl. symmetry. apply Ascii.eqb_neq. exact Hc.
Qed.

(** X14: the loop that reads a description line by line loses nothing but
    one line feed at the very end: the lines it delivers, joined by line
    feeds, are the description, without its last character when that is a
    line feed.  In particular an empty description has no line, and a
    description without a line feed is its own single line. *)
Theorem getlines_round_trip (desc : string) :
  String.concat newline (getlines desc "" false)
  ++ (if ends_with_newline desc then newline else "")
  = desc.
Proof. exact (getlines_join desc ""). Qed.

(** ** Handler factories *)

Lemma for_each_push_back (St : Type) (t : reference St (list string))
    (args : list string) :
  reads_back t ->
  forall s, exists s',
    for_each (push_back t from_string_string) args s = (s', Returned tt) /\
    load t s' = (load t s ++ args)%list.
Proof.
  intros Hrb. induction args as [|a args IH]; intros s.
  - exists s. rewrite app_nil_r. split; reflexivity.
  - destruct (IH (store t (load t s ++ [a])%list s)) as [s' [Hrun Hload]].
    exists s'. split.
    + cbn [for_each]. unfold bind at 1. exact Hrun.
    + rewrite Hload, Hrb, <- app_assoc. reflexivity.
Qed.

(** X15: with [push_back] on a list of strings as the non-option handler,
    a run over operands only (no token starting with a hyphen, a lone
    hyphen apart) returns, and the list then holds what it held before
    followed by the tokens, in their order. *)
Theorem run_collects_operands (St : Type) (p : basic_parser St)
    (t : reference St (list string)) (args : list string) (s : St) :
  reads_back t ->
  m_non_option_handler p = push_back t from_string_string ->
  forallb operand args = true ->
  exists s',
    run p args s = (s', Returned tt) /\
    load t s' = (load t s ++ args)%list.
Proof.
  intros Hrb Hh Hall.
  destruct (for_each_push_back St t args Hrb s) as [s' [Hrun Hload]].
  exists s'. split; [|exact Hload].
  rewrite <- Hrun, <- Hh. clear Hrun Hload.
  revert s. induction args as [|tok rest IH]; intros s.
  - reflexivity.
  - simpl in Hall. apply andb_true_iff in Hall. destruct Hall as [Htok Hrest].
    destruct (operand_shape tok Htok) as [Hsep [Hlong Hshort]].
    rewrite run_cons. unfold run_body.
    destruct (String.eqb_spec tok "--"); [contradiction|].
    rewrite Hlong, Hshort. destruct (m_flag p).
    + rewrite bind_assoc. cbn [for_each]. apply bind_ext. intros _ s1.
      rewrite bind_ret_l. destruct rest as [|x rest']; [reflexivity|].
      apply IH. exact Hrest.
    + rewrite bind_assoc.
      rewrite <- (bind_ret_unit _ (for_each (m_non_option_handler p)
                                            (tok :: rest))).
      apply bind_ext. reflexivity.
Qed.

Lemma run_collects_operands_example :
  exists s',
    run (parser_default []
           (push_back {| load := fun s : list string => s;
                         store := fun v _ => v |} from_string_string)
           posixly_correct)
        ["a"; "-"; "b"] ["x"]
    = (s', Returned tt) /\
    s' = ["x"; "a"; "-"; "b"].
Proof.
  apply (run_collects_operands (list string)
           (parser_default []
              (push_back {| load := fun s : list string => s;
                            store := fun v _ => v |} from_string_string)
              posixly_correct)
           {| load := fun s : list string => s; store := fun v _ => v |}
           ["a"; "-"; "b"] ["x"]).
  - intros v s. reflexivity.
  - reflexivity.
  - reflexivity.
Defined.

Lemma run_long_value (St : Type) (p : basic_parser St)
    (tok name value : string) (opt : basic_option St) (rest : list string)
    (s : St) :
  regex_match_long tok = Some (name, Some value) ->
  resolve_long (m_options p) name = Selected opt ->
  get_arg_type opt <> arg_none ->
  run p (tok :: rest) s = (m_handler opt (Some value) ;;; run p rest) s.
Proof.
  intros Hlong Hsel Harg.
  assert (Hsep : tok <> "--").
  { intros ->. exact (regex_match_long_not_separator _ _ Hlong). }
  rewrite (run_long_selected _ _ _ _ _ _ _ _ Hsep Hlong Hsel).
  unfold dispatch_long.
  destruct (get_arg_type opt) eqn:A; [congruence| |];
    rewrite bind_assoc;
    (transitivity (bind (m_handler opt (Some value))
                        (fun _ => run p (advance false rest)) s);
     [apply bind_ext_l; apply execute_arg_handler; congruence
     |apply bind_ext; intros _ s'; destruct rest; reflexivity]).
Qed.

(** An option with a required argument whose handler is [assign] on a
    reference, given its value with an equals sign: when the value
    converts, it is stored in the reference and the scan goes on; when it
    does not, [run] throws the error for an invalid value, naming the
    value, the reference is left as it was and no later token is read. *)
Lemma run_assign_value_shape (St T : Type) (p : basic_parser St)
    (t : reference St T) (extract : string -> option T)
    (short_names : list ascii) (long_names : list string)
    (arg_name description : string) (tok name value : string)
    (rest : list string) (s : St) :
  regex_match_long tok = Some (name, Some value) ->
  resolve_long (m_options p) name
  = Selected (option_required_arg short_names long_names
                (assign t (from_string extract)) arg_name description) ->
  run p (tok :: rest) s
  = match extract value with
    | Some v => run p rest (store t v s)
    | None => (s, Thrown (error ("invalid value: " ++ value)))
    end.
Proof.
  intros Hlong Hsel.
  rewrite (run_long_value _ _ _ _ _ _ _ _ Hlong Hsel) by discriminate.
  unfold bind, option_required_arg, assign, from_string, write, assert;
    simpl.
  destruct (extract value); reflexivity.
Qed.


(** With the parser's default handler for unrecognized options, a
    cluster in which a character that no option declares comes after
    options without an argument runs the handlers of those options and
    then throws an error whose message is [unrecognized option: -]
    followed by the cluster from that character on; nothing after it is
    read. *)
Lemma run_cluster_unrecognized_default_shape (St : Type)
    (options : list (basic_option St))
    (non_option_handler : string -> M St unit) (flag : parse_flag)
    (tok pre : string) (opts : list (basic_option St)) (c : ascii)
    (after : string) (rest : list string) (s : St) :
  regex_match_long tok = None ->
  regex_match_short tok = Some (pre ++ String c after) ->
  flags (parser_default options non_option_handler flag) pre opts ->
  matching_short options c = [] ->
  run (parser_default options non_option_handler flag) (tok :: rest) s
  = (call_all opts ;;;
     throw ("unrecognized option: -" ++ String c after)) s.
Proof.
  intros Hlong Hshort Hflags Hnone.
  rewrite (run_short_token_shape _ _ _ _ _ _ Hlong Hshort).
  rewrite (bind_ext_l _ _ _ _
             (call_all opts ;;;
              throw ("unrecognized option: -" ++ String c after))).
  - rewrite bind_assoc. apply bind_ext. intros _ s1. reflexivity.
  - rewrite (run_short_flags _ _ _ _ _ _ Hflags).
    apply bind_ext. intros _ s1.
    rewrite run_short_resolve. unfold resolve_short.
    cbn [m_options parser_default]. rewrite Hnone. reflexivity.
Qed.

(** ** Options given several times *)

(** X19: an option with a required argument whose handler is [push_back]
    on a list of strings, given any number of times as [--name=value],
    with a name free of equals signs and values free of line feeds and
    carriage returns (a value may be empty): [run] returns, and the list
    then holds what it held before followed by the values, in the order
    of the tokens. *)
Theorem run_push_back_collects (St : Type) (p : basic_parser St)
    (t : reference St (list string))
    (short_names : list ascii) (long_names : list string)
    (arg_name description : string) (name : string)
    (values : list string) (s : St) :
  reads_back t ->
  no_equals name = true ->
  forallb dot_star values = true ->
  resolve_long (m_options p) name
  = Selected (option_required_arg short_names long_names
                (push_back t from_string_string) arg_name description) ->
  exists s',
    run p (map (fun v => "--" ++ name ++ "=" ++ v) values) s
    = (s', Returned tt) /\
    load t s' = (load t s ++ values)%list.
Proof.
  intros Hrb Hname Hvalues Hsel. revert s.
  induction values as [|v values IH]; intros s.
  - exists s. rewrite app_nil_r. split; reflexivity.
  - simpl in Hvalues. apply andb_true_iff in Hvalues.
    destruct Hvalues as [Hv Hrest].
    destruct (IH Hrest (store t (load t s ++ [v])%list s))
      as [s' [Hrun Hload]].
    exists s'. split.
    + cbn [map].
      assert (Hlong : regex_match_long ("--" ++ name ++ "=" ++ v)
                      = Some (name, Some v)).
      { apply regex_match_long_iff. split; [reflexivity|].
        split; [exact Hname|]. intros x E. inversion E; subst. exact Hv. }
      rewrite (run_long_value _ p _ name v _ _ _ Hlong Hsel) by discriminate.
      unfold bind at 1. exact Hrun.
    + rewrite Hload, Hrb, <- app_assoc. reflexivity.
Qed.

Lemma run_push_back_collects_example :
  exists s',
    run libdir_parser
        (map (fun v => "--" ++ "lib" ++ "=" ++ v) ["/usr/lib"; ""; "-L"])
        ["/lib"]
    = (s', Returned tt) /\
    s' = ["/lib"; "/usr/lib"; ""; "-L"].
Proof.
  apply (run_push_back_collects (list string) libdir_parser collected
           ["L"%char] ["libdir"] "DIR" "" "lib" ["/usr/lib"; ""; "-L"]
           ["/lib"]).
  - intros v s. reflexivity.
  - reflexivity.
  - reflexivity.
  - reflexivity.
Defined.

(** ** Descriptions of one line *)

Lemma getlines_no_newline (desc : string) :
  no_newline desc = true ->
  forall ln, getlines desc ln true = [ln ++ desc].
Proof.
  induction desc as [|c desc IH]; simpl; intros H ln.
  - rewrite append_nil_r. reflexivity.
  - apply andb_true_iff in H. destruct H as [Hc Hd].
    apply negb_true_iff in Hc. rewrite Hc, (IH Hd), append_assoc.
    reflexivity.
Qed.

Lemma concat_getlines_no_newline (sep desc : string) :
  no_newline desc = true ->
  String.concat sep (getlines desc "" false) = desc.
Proof.
  destruct desc as [|c desc]; [reflexivity|]. simpl. intros H.
  apply andb_true_iff in H. destruct H as [Hc Hd].
  apply negb_true_iff in Hc. rewrite Hc, (getlines_no_newline _ Hd).
  reflexivity.
Qed.

(** X20: when no description holds a line feed, the help text is the
    header on a line of its own followed by one line per option, in the
    order of declaration and with no line feed after the last: the short
    field padded to one more than the widest short field, the long field
    padded to one more than the widest long field, and the description. *)
Theorem get_help_one_line_each (St : Type) (p : basic_parser St)
    (header : string) :
  forallb (fun opt => no_newline (m_description opt)) (m_options p) = true ->
  get_help p header
  = header ++ newline ++
    String.concat newline
      (map (fun opt =>
              setw_left (S (widest true (m_options p)))
                        (fst (fst (option_get_help opt))) ++
              setw_left (S (widest false (m_options p)))
                        (snd (fst (option_get_help opt))) ++
              m_description opt)
           (m_options p)).
Proof.
  intros Hall. unfold get_help. rewrite help_widths_spec. cbn [app Nat.max].
  rewrite help_rows_loop_spec, map_map, append_assoc.
  f_equal. f_equal. f_equal.
  apply map_ext_in. intros opt Hin. unfold help_block.
  rewrite forallb_forall in Hall.
  change (snd (option_get_help opt)) with (m_description opt).
  rewrite (concat_getlines_no_newline _ _ (Hall opt Hin)). reflexivity.
Qed.

Lemma get_help_one_line_each_example :
  get_help (Log.parser_of [help_decl; output_decl] true flag_none) "usage"
  = "usage" ++ newline ++
    "-h       --help          show help message" ++ newline ++
    "-o[FILE] --output[=FILE] write output to FILE".
Proof.
  rewrite (get_help_one_line_each Log.trace
             (Log.parser_of [help_decl; output_decl] true flag_none) "usage").
  - reflexivity.
  - reflexivity.
Defined.

(** ** Statements on tokens as they are written *)

Lemma cluster_token_shape (chars : string) :
  cluster chars = true ->
  regex_match_long ("-" ++ chars) = None /\
  regex_match_short ("-" ++ chars) = Some chars.
Proof.
  destruct chars as [|c cs]; [discriminate|]. unfold cluster.
  intros H. apply andb_true_iff in H. destruct H as [Hc Hdot].
  apply negb_true_iff in Hc.
  rewrite regex_match_long_shape, regex_match_short_shape.
  unfold long_shape, short_shape. cbn [append].
  rewrite Hc, Hdot. split; reflexivity.
Qed.

Lemma long_token_shape (name : string) (value : option string) :
  no_equals name = true ->
  plain_value value = true ->
  regex_match_long ("--" ++ name ++ value_suffix value) = Some (name, value).
Proof.
  intros Hname Hvalue. apply regex_match_long_iff.
  split; [reflexivity|]. split; [exact Hname|].
  intros v ->. exact Hvalue.
Qed.

(** X5: in a token made of a hyphen and a cluster (one or more characters,
    the first not a hyphen, none a line feed or a carriage return), when
    each character before [c] selects one option without an argument and
    [c] selects one option that takes an argument (optional or required)
    and is followed by more characters, [run] calls the handlers of the
    earlier options in order and then the handler of [c]'s option on the
    remaining characters, all of them, as its value; the token is then
    used up and the next token is not touched. *)
Theorem run_cluster_attached_value (St : Type) (p : basic_parser St)
    (pre : string) (opts : list (basic_option St)) (c : ascii)
    (after : string) (opt : basic_option St) (rest : list string) (s : St) :
  cluster (pre ++ String c after) = true ->
  flags p pre opts ->
  resolve_short (m_options p) c = Selected opt ->
  get_arg_type opt <> arg_none ->
  after <> "" ->
  run p (("-" ++ pre ++ String c after) :: rest) s
  = (call_all opts ;;; m_handler opt (Some after) ;;; run p rest) s.
Proof.
  intros Hcluster Hflags Hsel Harg Hne.
  destruct (cluster_token_shape _ Hcluster) as [Hlong Hshort].
  exact (run_cluster_attached_value_shape St p _ pre opts c after opt rest s
           Hlong Hshort Hflags Hsel Harg Hne).
Qed.

Lemma run_cluster_attached_value_example :
  run (Log.parser_of [a_decl; output_decl] true flag_none)
      ["-ao-a"; "-a"] []
  = ([Log.OptionHandler 0 None; Log.OptionHandler 1 (Some "-a");
      Log.OptionHandler 0 None], Returned tt).
Proof.
  exact (run_cluster_attached_value Log.trace
           (Log.parser_of [a_decl; output_decl] true flag_none)
           "a" [Log.option_of 0 a_decl] "o" "-a"
           (Log.option_of 1 output_decl) ["-a"] []
           eq_refl
           ltac:(repeat (constructor; try reflexivity))
           eq_refl ltac:(discriminate) ltac:(discriminate)).
Defined.

(** X6: in a token made of a hyphen and a cluster, when each character
    before the last selects one option without an argument and the last
    character selects one option with an optional argument, [run] calls
    the handlers of the earlier options in order and then that option's
    handler without a value; the next token is not taken as its value but
    scanned in its turn. *)
Theorem run_cluster_optional_at_end (St : Type) (p : basic_parser St)
    (pre : string) (opts : list (basic_option St)) (c : ascii)
    (opt : basic_option St) (rest : list string) (s : St) :
  cluster (pre ++ String c "") = true ->
  flags p pre opts ->
  resolve_short (m_options p) c = Selected opt ->
  get_arg_type opt = arg_optional ->
  run p (("-" ++ pre ++ String c "") :: rest) s
  = (call_all opts ;;; m_handler opt None ;;; run p rest) s.
Proof.
  intros Hcluster Hflags Hsel Harg.
  destruct (cluster_token_shape _ Hcluster) as [Hlong Hshort].
  exact (run_cluster_optional_at_end_shape St p _ pre opts c opt rest s
           Hlong Hshort Hflags Hsel Harg).
Qed.

Lemma run_cluster_optional_at_end_example :
  run (Log.parser_of [a_decl; output_decl] true flag_none)
      ["-ao"; "file"] []
  = ([Log.OptionHandler 0 None; Log.OptionHandler 1 None;
      Log.NonOptionHandler "file"], Returned tt).
Proof.
  exact (run_cluster_optional_at_end Log.trace
           (Log.parser_of [a_decl; output_decl] true flag_none)
           "a" [Log.option_of 0 a_decl] "o"
           (Log.option_of 1 output_decl) ["file"] []
           eq_refl
           ltac:(repeat (constructor; try reflexivity))
           eq_refl eq_refl).
Defined.

(** X7: in a token made of a hyphen and a cluster, when each character
    before the last selects one option without an argument and the last
    character selects one option with a required argument, [run] calls
    the handlers of the earlier options in order and then that option's
    handler on the whole next token, whatever that token looks like, and
    the scan goes on after it; when no token follows, [run] throws the
    error for a missing argument, after the handlers of the earlier
    options have run. *)
Theorem run_cluster_required_at_end (St : Type) (p : basic_parser St)
    (pre : string) (opts : list (basic_option St)) (c : ascii)
    (opt : basic_option St) (s : St) :
  cluster (pre ++ String c "") = true ->
  flags p pre opts ->
  resolve_short (m_options p) c = Selected opt ->
  get_arg_type opt = arg_required ->
  (forall next rest,
      run p (("-" ++ pre ++ String c "") :: next :: rest) s
      = (call_all opts ;;; m_handler opt (Some next) ;;; run p rest) s) /\
  run p ["-" ++ pre ++ String c ""] s
  = (call_all opts ;;;
     throw ("argument required: -" ++ String c "")) s.
Proof.
  intros Hcluster Hflags Hsel Harg.
  destruct (cluster_token_shape _ Hcluster) as [Hlong Hshort].
  exact (run_cluster_required_at_end_shape St p _ pre opts c opt s
           Hlong Hshort Hflags Hsel Harg).
Qed.

Lemma run_cluster_required_at_end_example :
  run (Log.parser_of [a_decl; b_decl] true flag_none) ["-ab"; "--"; "-a"] []
  = ([Log.OptionHandler 0 None; Log.OptionHandler 1 (Some "--");
      Log.OptionHandler 0 None], Returned tt) /\
  run (Log.parser_of [a_decl; b_decl] true flag_none) ["-ab"] []
  = ([Log.OptionHandler 0 None], Thrown (error "argument required: -b")).
Proof.
  destruct (run_cluster_required_at_end Log.trace
              (Log.parser_of [a_decl; b_decl] true flag_none)
              "a" [Log.option_of 0 a_decl] "b"
              (Log.option_of 1 b_decl) []
              eq_refl
              ltac:(repeat (constructor; try reflexivity))
              eq_refl eq_refl) as [Hnext Hmissing].
  split; [exact (Hnext "--" ["-a"])|exact Hmissing].
Defined.

(** X18: with the parser's default handler for unrecognized options, in a
    token made of a hyphen and a cluster, when each character before [c]
    selects one option without an argument and no option declares [c],
    [run] calls the handlers of the earlier options in order and then
    throws an error whose message is [unrecognized option: -] followed by
    the cluster from [c] on; nothing after it is read. *)
Theorem run_cluster_unrecognized_default (St : Type)
    (options : list (basic_option St))
    (non_option_handler : string -> M St unit) (flag : parse_flag)
    (pre : string) (opts : list (basic_option St)) (c : ascii)
    (after : string) (rest : list string) (s : St) :
  cluster (pre ++ String c after) = true ->
  flags (parser_default options non_option_handler flag) pre opts ->
  matching_short options c = [] ->
  run (parser_default options non_option_handler flag)
      (("-" ++ pre ++ String c after) :: rest) s
  = (call_all opts ;;;
     throw ("unrecognized option: -" ++ String c after)) s.
Proof.
  intros Hcluster Hflags Hnone.
  destruct (cluster_token_shape _ Hcluster) as [Hlong Hshort].
  exact (run_cluster_unrecognized_default_shape St options
           non_option_handler flag _ pre opts c after rest s
           Hlong Hshort Hflags Hnone).
Qed.

Lemma run_cluster_unrecognized_default_example :
  run (Log.parser_of [a_decl] true flag_none) ["-axa"; "next"] []
  = ([Log.OptionHandler 0 None], Thrown (error "unrecognized option: -xa")).
Proof.
  exact (run_cluster_unrecognized_default Log.trace
           (Log.options_from 0 [a_decl])
           (fun a => Log.log (Log.NonOptionHandler a)) flag_none
           "a" [Log.option_of 0 a_decl] "x" "a" ["next"] []
           eq_refl
           ltac:(repeat (constructor; try reflexivity))
           eq_refl).
Defined.

(** X9: a token made of two hyphens, a name free of equals signs and,
    optionally, an equals sign and a value free of line feeds and carriage
    returns, the separator [--] apart, whose name no option matches,
    exactly or as a prefix, is handed whole (hyphens and attached value
    included) to the handler for unrecognized options, and the scan goes
    on with the next token if the handler returns; with the parser's
    default handler [run] throws at once an error whose message is
    [unrecognized option: ] followed by the token. *)
Theorem run_long_unrecognized (St : Type) :
  (forall (p : basic_parser St) (name : string) (value : option string)
          (rest : list string) (s : St),
      no_equals name = true ->
      plain_value value = true ->
      "--" ++ name ++ value_suffix value <> "--" ->
      resolve_long (m_options p) name = Unrecognized ->
      run p (("--" ++ name ++ value_suffix value) :: rest) s
      = (m_unrec_option_handler p ("--" ++ name ++ value_suffix value) ;;;
         run p rest) s) /\
  (forall (options : list (basic_option St))
          (non_option_handler : string -> M St unit) (flag : parse_flag)
          (name : string) (value : option string)
          (rest : list string) (s : St),
      no_equals name = true ->
      plain_value value = true ->
      "--" ++ name ++ value_suffix value <> "--" ->
      resolve_long options name = Unrecognized ->
      run (parser_default options non_option_handler flag)
          (("--" ++ name ++ value_suffix value) :: rest) s
      = (s, Thrown (error ("unrecognized option: "
                           ++ "--" ++ name ++ value_suffix value)))).
Proof.
  split.
  - intros p name value rest s Hname Hvalue Hsep Hres.
    exact (proj1 (run_long_unrecognized_shape St) p _ name value rest s
             Hsep (long_token_shape _ _ Hname Hvalue) Hres).
  - intros options nh flag name value rest s Hname Hvalue Hsep Hres.
    exact (proj2 (run_long_unrecognized_shape St) options nh flag _ name
             value rest s Hsep (long_token_shape _ _ Hname Hvalue) Hres).
Qed.

Lemma run_long_unrecognized_example :
  run (Log.parser_of [help_decl] false flag_none) ["--unknown=1"; "x"] []
  = ([Log.UnrecOptionHandler "--unknown=1"; Log.NonOptionHandler "x"],
     Returned tt) /\
  run (Log.parser_of [help_decl] true flag_none) ["--unknown"; "x"] []
  = ([], Thrown (error "unrecognized option: --unknown")).
Proof.
  split.
  - exact (proj1 (run_long_unrecognized Log.trace)
             (Log.parser_of [help_decl] false flag_none)
             "unknown" (Some "1") ["x"] []
             eq_refl eq_refl ltac:(discriminate) eq_refl).
  - exact (proj2 (run_long_unrecognized Log.trace)
             (Log.options_from 0 [help_decl])
             (fun a => Log.log (Log.NonOptionHandler a)) flag_none
             "unknown" None ["x"] []
             eq_refl eq_refl ltac:(discriminate) eq_refl).
Defined.



(** X16: an option with a required argument whose handler is [assign] on a
    reference, given its value in a token made of two hyphens, a name free
    of equals signs, an equals sign and a value free of line feeds and
    carriage returns: when the value converts, it is stored in the
    reference and the scan goes on; when it does not, [run] throws the
    error for an invalid value, naming the value, the reference is left
    as it was and no later token is read. *)
Theorem run_assign_value (St T : Type) (p : basic_parser St)
    (t : reference St T) (extract : string -> option T)
    (short_names : list ascii) (long_names : list string)
    (arg_name description : string) (name value : string)
    (rest : list string) (s : St) :
  no_equals name = true ->
  dot_star value = true ->
  resolve_long (m_options p) name
  = Selected (option_required_arg short_names long_names
                (assign t (from_string extract)) arg_name description) ->
  run p (("--" ++ name ++ "=" ++ value) :: rest) s
  = match extract value with
    | Some v => run p rest (store t v s)
    | None => (s, Thrown (error ("invalid value: " ++ value)))
    end.
Proof.
  intros Hname Hvalue Hsel.
  exact (run_assign_value_shape St T p t extract short_names long_names
           arg_name description _ name value rest s
           (long_token_shape name (Some value) Hname Hvalue) Hsel).
Qed.

Lemma run_assign_value_example :
  run count_parser ["--count=3"] 1 = (3, Returned tt) /\
  run count_parser ["--count=x"; "--count=3"] 1
  = (1, Thrown (error "invalid value: x")).
Proof.
  split.
  - exact (run_assign_value nat nat count_parser counter extract_three
             ["c"%char] ["count"] "N" "" "count" "3" [] 1
             eq_refl eq_refl eq_refl).
  - exact (run_assign_value nat nat count_parser counter extract_three
             ["c"%char] ["count"] "N" "" "count" "x" ["--count=3"] 1
             eq_refl eq_refl eq_refl).
Defined.


